(** * poolalloc: a fixed-size block allocator (pool.h and its implementation)

    Shallow embedding of the allocator and the properties of its
    bitmask bookkeeping, its power-of-two rounding and its
    create / alloc / free operations.

    Conventions of the embedding.
    - [unsigned] and [int] are 32 bits wide; values are kept in [Z] and the
      wrap-around of every operation is written out.
    - [unsigned long] (the type [ss_t]), [size_t] and pointers have the width
      of the data model: 4 bytes under ILP32, 8 bytes under LP64.
    - The source selects its bit order with [REVERSE_SS], which is only
      defined when [__ARM__] is; the embedding follows the default ([#else])
      branch, the one built on every other target.
    - Behaviour the C language leaves undefined (reading or writing an array
      out of bounds, [__builtin_ctz] of zero) is an explicit outcome,
      as is a failed [assert].
    - A left shift of an [int] ([1 << l2s], [pos << l2s]) wraps to 32 bits in
      two's complement, as the compilers that provide [__builtin_ctz] do.
    - Addresses are integers; the system allocator is a parameter. *)

From Stdlib Require Import ZArith List Bool Lia.
Import ListNotations.

Local Open Scope Z_scope.

(** ** Outcomes of a C computation *)

Inductive result (A : Type) : Type :=
| Ok (a : A)        (* normal return *)
| AssertFail        (* an [assert] failed: the process aborts *)
| Undefined         (* undefined behaviour was executed *)
| OutOfFuel.        (* the recursion budget of the embedding ran out *)

Arguments Ok {A} a.
Arguments AssertFail {A}.
Arguments Undefined {A}.
Arguments OutOfFuel {A}.

Definition bind {A B : Type} (m : result A) (k : A -> result B) : result B :=
  match m with
  | Ok a => k a
  | AssertFail => AssertFail
  | Undefined => Undefined
  | OutOfFuel => OutOfFuel
  end.

Notation "x <- m ;; k" := (bind m (fun x => k))
  (at level 61, m at next level, right associativity).
Notation "' pat <- m ;; k" := (bind m (fun x => match x with pat => k end))
  (at level 61, pat pattern, m at next level, right associativity).

(** [assert(c)] *)
Definition assert (c : bool) : result unit :=
  if c then Ok tt else AssertFail.

(** ** Data models *)

Inductive data_model : Type := ILP32 | LP64.

(** [sizeof(unsigned long)], which is also [sizeof(size_t)] and the size of a
    pointer in both models. *)
Definition sizeof_long (dm : data_model) : Z :=
  match dm with ILP32 => 4 | LP64 => 8 end.

(** Width in bits of [unsigned] and [int]. *)
Definition int_bits : Z := 32.

Definition long_bits (dm : data_model) : Z := sizeof_long dm * 8.

(** Conversion to [unsigned]. *)
Definition to_unsigned (x : Z) : Z := x mod 2 ^ int_bits.

(** Conversion to [int] (two's complement). *)
Definition to_int (x : Z) : Z :=
  let u := to_unsigned x in
  if u <? 2 ^ (int_bits - 1) then u else u - 2 ^ int_bits.

(** Conversion to [unsigned long] / [size_t]. *)
Definition to_ulong (dm : data_model) (x : Z) : Z := x mod 2 ^ long_bits dm.

(** ** Maths utilities *)

(** [static unsigned npot(unsigned x)] *)
Definition npot (x : Z) : Z :=
  let x := to_unsigned (x - 1) in
  let x := Z.lor (Z.shiftr x 1) x in
  let x := Z.lor (Z.shiftr x 2) x in
  let x := Z.lor (Z.shiftr x 4) x in
  let x := Z.lor (Z.shiftr x 8) x in
  let x := Z.lor (Z.shiftr x 16) x in
  to_unsigned (x + 1).

(** Number of trailing zero bits of a positive binary number. *)
Fixpoint ctz_pos (p : positive) : Z :=
  match p with
  | xO q => 1 + ctz_pos q
  | _ => 0
  end.

(** [int __builtin_ctz(unsigned int x)]: the argument is converted to
    [unsigned int]; the result is undefined when that value is zero. *)
Definition builtin_ctz (x : Z) : result Z :=
  match to_unsigned x with
  | Zpos p => Ok (ctz_pos p)
  | _ => Undefined
  end.

(** ** Slot Set: [typedef unsigned long ss_t] *)

Definition ss_t : Type := Z.

(** In the three operations below [mask] is [1 << idx] in the width of
    [ss_t].  The program only calls them with the local index of a group
    operation, which is below [SSG_COUNT] and so below that width. *)

(** [static inline unsigned ss_find(ss_t x)] *)
Definition ss_find (x : ss_t) : result Z := builtin_ctz x.

(** [static inline bool ss_test(ss_t x, unsigned idx)] *)
Definition ss_test (dm : data_model) (x : ss_t) (idx : Z) : bool :=
  let mask := to_ulong dm (Z.shiftl 1 idx) in
  Z.land x mask =? 0.

(** [static inline ss_t ss_mark(ss_t x, unsigned idx)] *)
Definition ss_mark (dm : data_model) (x : ss_t) (idx : Z) : ss_t :=
  let mask := to_ulong dm (Z.shiftl 1 idx) in
  Z.land x (to_ulong dm (Z.lnot mask)).

(** [static inline ss_t ss_unmark(ss_t x, unsigned idx)] *)
Definition ss_unmark (dm : data_model) (x : ss_t) (idx : Z) : ss_t :=
  let mask := to_ulong dm (Z.shiftl 1 idx) in
  Z.lor x mask.

(** [const static ss_t SS_EMPTY = -1UL] *)
Definition SS_EMPTY (dm : data_model) : ss_t := to_ulong dm (-1).

(** [const static ss_t SS_FULL = 0UL] *)
Definition SS_FULL : ss_t := 0.

(** [#define SS_SIZE (sizeof(ss_t)*8)] *)
Definition SS_SIZE (dm : data_model) : Z := sizeof_long dm * 8.

(** ** Slot Set Group *)

(** [#define SSG_COUNT (8/sizeof(ss_t))] *)
Definition SSG_COUNT (dm : data_model) : Z := 8 / sizeof_long dm.

(** [#define SSG_SIZE (SSG_COUNT*SS_SIZE)] *)
Definition SSG_SIZE (dm : data_model) : Z := SSG_COUNT dm * SS_SIZE dm.

(** [typedef struct _ssg { ss_t s[SSG_COUNT]; } ssg_t]: the array [s]. *)
Definition ssg_t : Type := list ss_t.

(** [x.s[i]] as an rvalue: out of bounds is undefined. *)
Definition ssg_get (x : ssg_t) (i : Z) : result ss_t :=
  if i <? 0 then Undefined
  else match nth_error x (Z.to_nat i) with
       | Some v => Ok v
       | None => Undefined
       end.

Fixpoint list_set (x : list ss_t) (n : nat) (v : ss_t) : list ss_t :=
  match x, n with
  | [], _ => []
  | _ :: t, O => v :: t
  | a :: t, S m => a :: list_set t m v
  end.

(** [x.s[i] = v]: out of bounds is undefined. *)
Definition ssg_set (x : ssg_t) (i : Z) (v : ss_t) : result ssg_t :=
  if (0 <=? i) && (i <? Z.of_nat (length x))
  then Ok (list_set x (Z.to_nat i) v)
  else Undefined.

(** [static inline bool ssg_is_full(ssg_t x)] *)
Definition ssg_is_full (x : ssg_t) : bool :=
  forallb (fun s => s =? SS_FULL) x.

(** The loop of [ssg_find], from word [i] on with [pos] accumulated. *)
Fixpoint ssg_find_from (dm : data_model) (s : list ss_t) (pos : Z) : result Z :=
  match s with
  | [] => Ok 0
  | si :: rest =>
      if negb (si =? SS_FULL)
      then r <- ss_find si ;; Ok (to_int (pos + r))
      else ssg_find_from dm rest (pos + SS_SIZE dm)
  end.

(** [static inline int ssg_find(ssg_t x)] *)
Definition ssg_find (dm : data_model) (x : ssg_t) : result Z :=
  ssg_find_from dm x 0.

(** [static inline unsigned _ssg_bucket(unsigned idx)] *)
Definition _ssg_bucket (dm : data_model) (idx : Z) : Z :=
  to_unsigned (to_unsigned idx / SSG_COUNT dm).

(** [static inline unsigned _ssg_subindex(unsigned idx)] *)
Definition _ssg_subindex (dm : data_model) (idx : Z) : Z :=
  to_unsigned (to_unsigned idx mod SSG_COUNT dm).

(** [static inline bool ssg_test(ssg_t x, int idx)] *)
Definition ssg_test (dm : data_model) (x : ssg_t) (idx : Z) : result bool :=
  s <- ssg_get x (_ssg_bucket dm idx) ;;
  Ok (ss_test dm s (_ssg_subindex dm idx)).

(** [static inline ssg_t ssg_mark(ssg_t x, int idx)] *)
Definition ssg_mark (dm : data_model) (x : ssg_t) (idx : Z) : result ssg_t :=
  s <- ssg_get x (_ssg_bucket dm idx) ;;
  ssg_set x (_ssg_bucket dm idx) (ss_mark dm s (_ssg_subindex dm idx)).

(** [static inline ssg_t ssg_unmark(ssg_t x, int idx)] *)
Definition ssg_unmark (dm : data_model) (x : ssg_t) (idx : Z) : result ssg_t :=
  s <- ssg_get x (_ssg_bucket dm idx) ;;
  ssg_set x (_ssg_bucket dm idx) (ss_unmark dm s (_ssg_subindex dm idx)).

(** [static inline ssg_t ssg_empty()]: [memset] of the whole struct to 0xFF. *)
Definition ssg_empty (dm : data_model) : ssg_t :=
  repeat (2 ^ long_bits dm - 1) (Z.to_nat (SSG_COUNT dm)).

(** ** The pool *)

(** A value of type [pool*]: either the null pointer, or the address of a
    [struct _pool] together with the contents of its fields
    ([slots], [l2s], [successor]). *)
Inductive pool_ptr : Type :=
| NULL
| Node (addr : Z) (slots : ssg_t) (l2s : Z) (successor : pool_ptr).

(** [sizeof(pool)]: the 8 bytes of [slots], the 4 bytes of [l2s], then the
    pointer [successor] at its natural alignment (offset 12 under ILP32,
    offset 16 under LP64). *)
Definition sizeof_pool (dm : data_model) : Z :=
  match dm with ILP32 => 16 | LP64 => 24 end.

(** [static unsigned char* pool_source(pool* p)] *)
Definition pool_source (dm : data_model) (addr : Z) : Z :=
  addr + sizeof_pool dm.

Section Allocator.

(** The system allocator: [malloc] returns the address of the block (0 for
    a failed request) and the next state of the heap; [free] releases. *)
Variable heap : Type.
Variable malloc : Z -> heap -> Z * heap.
Variable free : Z -> heap -> heap.

(** [pool* pool_create_extra(unsigned objsize, unsigned extradata, void** edata)];
    [want_edata] says whether [edata] is non-null, and the value stored
    through it is returned next to the pool. *)
Definition pool_create_extra (dm : data_model) (objsize extradata : Z)
    (want_edata : bool) (h : heap) : result (pool_ptr * option Z * heap) :=
  _ <- assert (negb (objsize =? 0)) ;;
  let objsize := npot objsize in
  let '(buf, h') :=
    malloc (to_ulong dm (sizeof_pool dm + SSG_SIZE dm * objsize + extradata)) h in
  _ <- assert (negb (buf =? 0)) ;;
  l <- builtin_ctz objsize ;;
  let pl := Node buf (ssg_empty dm) (to_unsigned l) NULL in
  let edata :=
    if want_edata
    then Some (buf + sizeof_pool dm + to_ulong dm (SSG_SIZE dm * objsize))
    else None in
  Ok (pl, edata, h').

(** [inline static pool* pool_create(unsigned objsize)] *)
Definition pool_create (dm : data_model) (objsize : Z) (h : heap)
    : result (pool_ptr * heap) :=
  '(pl, _, h') <- pool_create_extra dm objsize 0 false h ;;
  Ok (pl, h').

(** [void pool_destroy(pool* pl)]: the heap after the walk. *)
Fixpoint pool_destroy (pl : pool_ptr) (h : heap) : heap :=
  match pl with
  | NULL => h
  | Node addr _ _ next => pool_destroy next (free addr h)
  end.

(** [void* pool_alloc(pool* pl)]: the address returned, the chain and the
    heap afterwards.  [fuel] bounds the depth of the recursion.  The address
    is the integer [pool_source + (pos << l2s)]; it is the pointer the code
    returns as long as the slot lies in the block of the node, where pointer
    arithmetic neither wraps nor is undefined (strides up to [2^24] in both
    data models). *)
Fixpoint pool_alloc (dm : data_model) (fuel : nat) (pl : pool_ptr) (h : heap)
    : result (Z * pool_ptr * heap) :=
  match fuel with
  | O => OutOfFuel
  | S fuel' =>
      match pl with
      | NULL => AssertFail
      | Node addr slots l2s successor =>
          if ssg_is_full slots then
            '(successor', h1) <-
              match successor with
              | NULL => pool_create dm (to_unsigned (Z.shiftl 1 l2s)) h
              | _ => Ok (successor, h)
              end ;;
            '(loc, successor'', h2) <- pool_alloc dm fuel' successor' h1 ;;
            Ok (loc, Node addr slots l2s successor'', h2)
          else
            pos <- ssg_find dm slots ;;
            let loc := pool_source dm addr + to_int (Z.shiftl pos l2s) in
            slots' <- ssg_mark dm slots pos ;;
            Ok (loc, Node addr slots' l2s successor, h)
      end
  end.

(** [void pool_free(pool* pl, void* ptr)]: the chain afterwards. *)
Fixpoint pool_free (dm : data_model) (pl : pool_ptr) (ptr : Z)
    : result pool_ptr :=
  match pl with
  | NULL => AssertFail
  | Node addr slots l2s successor =>
      if ptr =? 0 then Ok pl
      else if (pool_source dm addr <=? ptr)
              && (ptr <? pool_source dm addr
                         + to_ulong dm (Z.shiftl (SSG_SIZE dm) l2s))
      then
        let slot :=
          to_int (Z.shiftr (to_unsigned (ptr - pool_source dm addr)) l2s) in
        t <- ssg_test dm slots slot ;;
        _ <- assert t ;;
        slots' <- ssg_unmark dm slots slot ;;
        Ok (Node addr slots' l2s successor)
      else
        match successor with
        | NULL => AssertFail
        | _ =>
            successor' <- pool_free dm successor ptr ;;
            Ok (Node addr slots l2s successor')
        end
  end.

End Allocator.

Arguments pool_create_extra {heap} malloc dm objsize extradata want_edata h.
Arguments pool_create {heap} malloc dm objsize h.
Arguments pool_destroy {heap} free pl h.
Arguments pool_alloc {heap} malloc dm fuel pl h.

(** A concrete system allocator to run the operations on: the heap is the
    next unused address, blocks are handed out in order, 16-byte aligned. *)
Definition bump_malloc (n : Z) (h : Z) : Z * Z :=
  (h, h + 16 * ((n + 15) / 16)).

(** ** Vocabulary of the properties *)

(** [p] is the smallest power of two that is at least [n]. *)
Definition smallest_pow2_ge (p n : Z) : Prop :=
  exists k, 0 <= k /\ p = 2 ^ k /\ n <= p /\
            forall j, 0 <= j -> n <= 2 ^ j -> p <= 2 ^ j.

(** Encoding of a slot set: bit value 1 means the slot is free. *)
Definition ss_slot_free (x : ss_t) (idx : Z) : bool := Z.testbit x idx.

(** Bit [idx] of the 64-bit group, in the numbering of [ssg_find]: word
    [idx / SS_SIZE], local bit [idx mod SS_SIZE]. *)
Definition group_bit (dm : data_model) (x : ssg_t) (idx : Z) : bool :=
  ss_slot_free (nth (Z.to_nat (idx / SS_SIZE dm)) x 0) (idx mod SS_SIZE dm).

(** Number of free slots of a group. *)
Definition free_slot_count (dm : data_model) (x : ssg_t) : nat :=
  length (filter (group_bit dm x)
                 (map Z.of_nat (seq 0 (Z.to_nat (SSG_SIZE dm))))).

(** The array of a group has [SSG_COUNT] words of [SS_SIZE] bits. *)
Definition ssg_wf (dm : data_model) (x : ssg_t) : Prop :=
  Z.of_nat (length x) = SSG_COUNT dm /\
  Forall (fun s => 0 <= s < 2 ^ long_bits dm) x.

(** Every node of the chain has [l2s = v]. *)
Fixpoint chain_l2s_all (v : Z) (pl : pool_ptr) : Prop :=
  match pl with
  | NULL => True
  | Node _ _ l2s successor => l2s = v /\ chain_l2s_all v successor
  end.

(** A node at [addr] with exponent [l] belongs to the chain. *)
Fixpoint in_chain (addr l : Z) (pl : pool_ptr) : Prop :=
  match pl with
  | NULL => False
  | Node a _ l2s successor => (a = addr /\ l2s = l) \/ in_chain addr l successor
  end.

(** The range test of [pool_free]: [ptr] lies in the buffer of the node. *)
Definition node_owns (dm : data_model) (addr l ptr : Z) : bool :=
  (pool_source dm addr <=? ptr)
  && (ptr <? pool_source dm addr + to_ulong dm (Z.shiftl (SSG_SIZE dm) l)).

(** Some node of the chain passes the range test for [ptr]. *)
Fixpoint chain_owns (dm : data_model) (pl : pool_ptr) (ptr : Z) : bool :=
  match pl with
  | NULL => false
  | Node addr _ l successor => node_owns dm addr l ptr || chain_owns dm successor ptr
  end.

(** Bit [i] of [y] is set exactly when [x] has a set bit among the [m]
    positions from [i] upwards. *)
Definition smeared (x y m : Z) : Prop :=
  forall i, 0 <= i ->
    (Z.testbit y i = true <-> exists j, 0 <= j < m /\ Z.testbit x (i + j) = true).

(** The group has its [SSG_COUNT] words and bit [SSG_COUNT] of word 0 is
    set. *)
Definition spare_bit_set (dm : data_model) (x : ssg_t) : Prop :=
  Z.of_nat (length x) = SSG_COUNT dm /\
  Z.testbit (hd 0 x) (SSG_COUNT dm) = true.

(** Number of nodes of a chain. *)
Fixpoint chain_length (pl : pool_ptr) : nat :=
  match pl with
  | NULL => O
  | Node _ _ _ successor => S (chain_length successor)
  end.

(** The chains a caller can observe: the one [pool_create_extra] returns, and
    any chain [pool_alloc] or [pool_free] returns normally from such a one,
    whatever the system allocator does in between. *)
Inductive reachable {heap : Type} (malloc : Z -> heap -> Z * heap)
    (dm : data_model) : pool_ptr -> Prop :=
| reach_create objsize extradata want h pl edata h' :
    pool_create_extra malloc dm objsize extradata want h = Ok (pl, edata, h') ->
    reachable malloc dm pl
| reach_alloc fuel pl h loc pl' h' :
    reachable malloc dm pl ->
    pool_alloc malloc dm fuel pl h = Ok (loc, pl', h') ->
    reachable malloc dm pl'
| reach_free pl ptr pl' :
    reachable malloc dm pl ->
    pool_free dm pl ptr = Ok pl' ->
    reachable malloc dm pl'.

(** ** The reversed slot sets ([#ifdef REVERSE_SS]) *)

(** [int __builtin_clz(unsigned int x)]: the argument is converted to
    [unsigned int]; the result is undefined when that value is zero. *)
Definition builtin_clz (x : Z) : result Z :=
  match to_unsigned x with
  | Zpos p => Ok (int_bits - 1 - Z.log2 (Zpos p))
  | _ => Undefined
  end.

Module ReverseSS.

(** [#define SIGNBIT 0x80000000] *)
Definition SIGNBIT : Z := 2 ^ 31.

(** [static inline unsigned ss_find(ss_t x)] *)
Definition ss_find (x : ss_t) : result Z := builtin_clz x.

(** [static inline bool ss_test(ss_t x, unsigned idx)] *)
Definition ss_test (dm : data_model) (x : ss_t) (idx : Z) : bool :=
  let mask := Z.shiftr (to_ulong dm SIGNBIT) idx in
  Z.land x mask =? 0.

(** [static inline ss_t ss_mark(ss_t x, unsigned idx)] *)
Definition ss_mark (dm : data_model) (x : ss_t) (idx : Z) : ss_t :=
  let mask := Z.shiftr (to_ulong dm SIGNBIT) idx in
  Z.land x (to_ulong dm (Z.lnot mask)).

(** [static inline ss_t ss_unmark(ss_t x, unsigned idx)] *)
Definition ss_unmark (dm : data_model) (x : ss_t) (idx : Z) : ss_t :=
  let mask := Z.shiftr (to_ulong dm SIGNBIT) idx in
  Z.lor x mask.

End ReverseSS.

(** ** More vocabulary *)

(** The nodes of a chain, head first: address and exponent of each. *)
Fixpoint chain_shape (pl : pool_ptr) : list (Z * Z) :=
  match pl with
  | NULL => []
  | Node addr _ l2s successor => (addr, l2s) :: chain_shape successor
  end.

(** The addresses of the nodes of a chain, head first. *)
Fixpoint chain_addrs (pl : pool_ptr) : list Z :=
  match pl with
  | NULL => []
  | Node addr _ _ successor => addr :: chain_addrs successor
  end.

(** Every node of the chain has a full group. *)
Fixpoint chain_all_full (pl : pool_ptr) : bool :=
  match pl with
  | NULL => true
  | Node _ slots _ successor => ssg_is_full slots && chain_all_full successor
  end.

(** The exponent of the last node of a chain. *)
Fixpoint chain_tail_l2s (pl : pool_ptr) : Z :=
  match pl with
  | NULL => 0
  | Node _ _ l2s successor =>
      match successor with
      | NULL => l2s
      | Node _ _ _ _ => chain_tail_l2s successor
      end
  end.

(** Every group of the chain has its [SSG_COUNT] words. *)
Fixpoint chain_groups_sized (dm : data_model) (pl : pool_ptr) : Prop :=
  match pl with
  | NULL => True
  | Node _ slots _ successor =>
      Z.of_nat (length slots) = SSG_COUNT dm /\ chain_groups_sized dm successor
  end.

(** The bit of the group that [ssg_test], [ssg_mark] and [ssg_unmark] address
    for [idx], in the numbering of [ssg_find]: word [_ssg_bucket idx], local
    bit [_ssg_subindex idx]. *)
Definition ssg_addressed_bit (dm : data_model) (idx : Z) : Z :=
  _ssg_bucket dm idx * SS_SIZE dm + _ssg_subindex dm idx.

(** A system [free] that only records the addresses it is given. *)
Definition log_free (addr : Z) (released : list Z) : list Z :=
  released ++ [addr].

(** * Properties *)

(** Case analysis on the outcome [m] that hypothesis [H] binds first: only
    the normal return can lead to [H]'s [Ok]. *)
Tactic Notation "bind_ok" constr(m) "as" simple_intropattern(p) "in" hyp(H) :=
  destruct m as p; cbn [bind] in H; try discriminate.
Tactic Notation "bind_ok" constr(m) "as" simple_intropattern(p)
    "eqn" ":" ident(E) "in" hyp(H) :=
  destruct m as p eqn:E; cbn [bind] in H; try discriminate.

(** ** Integer conversions *)

Lemma to_unsigned_range x : 0 <= to_unsigned x < 2 ^ 32.
Proof. unfold to_unsigned, int_bits. apply Z.mod_pos_bound. lia. Qed.

Lemma to_unsigned_small x : 0 <= x < 2 ^ 32 -> to_unsigned x = x.
Proof. intros H. unfold to_unsigned, int_bits. now apply Z.mod_small. Qed.

Lemma to_int_small x : 0 <= x < 2 ^ 31 -> to_int x = x.
Proof.
  intros H. unfold to_int. rewrite to_unsigned_small by lia.
  unfold int_bits. destruct (Z.ltb_spec x (2 ^ (32 - 1))); lia.
Qed.

Lemma long_bits_cases dm : long_bits dm = 32 \/ long_bits dm = 64.
Proof. destruct dm; [left | right]; reflexivity. Qed.

Lemma to_ulong_small dm x : 0 <= x < 2 ^ 32 -> to_ulong dm x = x.
Proof.
  intros H. unfold to_ulong. apply Z.mod_small.
  destruct (long_bits_cases dm) as [-> | ->]; lia.
Qed.

Lemma SSG_SIZE_64 dm : SSG_SIZE dm = 64.
Proof. destruct dm; reflexivity. Qed.

(** ** Power-of-two rounding *)

Lemma smeared_refl x : smeared x x 1.
Proof.
  intros i Hi. split.
  - intros H. exists 0. split; [lia |]. now rewrite Z.add_0_r.
  - intros [j [Hj H]]. assert (j = 0) by lia. subst. now rewrite Z.add_0_r in H.
Qed.

Lemma smeared_step x y m :
  0 < m -> smeared x y m -> smeared x (Z.lor (Z.shiftr y m) y) (2 * m).
Proof.
  intros Hm Hy i Hi.
  rewrite Z.lor_spec, Z.shiftr_spec, orb_true_iff by lia.
  rewrite (Hy (i + m)), (Hy i) by lia.
  split.
  - intros [[j [Hj H]] | [j [Hj H]]].
    + exists (m + j). split; [lia |]. now rewrite Z.add_assoc.
    + exists j. split; [lia | exact H].
  - intros [j [Hj H]].
    destruct (Z_lt_le_dec j m) as [Hlt | Hge].
    + right. exists j. split; [lia | exact H].
    + left. exists (j - m). split; [lia |].
      now replace (i + m + (j - m)) with (i + j) by lia.
Qed.

Lemma smear_ones x :
  0 < x < 2 ^ 32 ->
  let x1 := Z.lor (Z.shiftr x 1) x in
  let x2 := Z.lor (Z.shiftr x1 2) x1 in
  let x3 := Z.lor (Z.shiftr x2 4) x2 in
  let x4 := Z.lor (Z.shiftr x3 8) x3 in
  Z.lor (Z.shiftr x4 16) x4 = Z.ones (Z.log2 x + 1).
Proof.
  intros Hx x1 x2 x3 x4.
  assert (Hk : 0 <= Z.log2 x < 32).
  { split; [apply Z.log2_nonneg |]. apply Z.log2_lt_pow2; lia. }
  assert (S5 : smeared x (Z.lor (Z.shiftr x4 16) x4) 32).
  { apply (smeared_step x x4 16); [lia |].
    apply (smeared_step x x3 8); [lia |].
    apply (smeared_step x x2 4); [lia |].
    apply (smeared_step x x1 2); [lia |].
    apply (smeared_step x x 1); [lia |].
    apply smeared_refl. }
  apply Z.bits_inj'. intros i Hi.
  destruct (Z_lt_le_dec i (Z.log2 x + 1)) as [Hlt | Hge].
  - rewrite Z.ones_spec_low by lia.
    apply S5; [lia |]. exists (Z.log2 x - i). split; [lia |].
    replace (i + (Z.log2 x - i)) with (Z.log2 x) by lia.
    apply Z.bit_log2. lia.
  - rewrite Z.ones_spec_high by lia.
    destruct (Z.testbit _ i) eqn:E; [| reflexivity].
    apply S5 in E; [| lia]. destruct E as [j [Hj E]].
    rewrite Z.bits_above_log2 in E by lia. discriminate.
Qed.

Lemma npot_log2 n :
  1 < n <= 2 ^ 32 -> npot n = to_unsigned (2 ^ (Z.log2 (n - 1) + 1)).
Proof.
  intros Hn. unfold npot.
  rewrite (to_unsigned_small (n - 1)) by lia.
  cbv zeta. rewrite smear_ones by lia.
  rewrite Z.ones_equiv. f_equal. lia.
Qed.

Lemma npot_in_range n :
  1 <= n <= 2 ^ 31 -> smallest_pow2_ge (npot n) n.
Proof.
  intros Hn. destruct (Z.eq_dec n 1) as [-> | Hne].
  - exists 0. repeat split; try reflexivity; try lia.
    intros j Hj _. change (npot 1) with 1.
    assert (0 < 2 ^ j) by (apply Z.pow_pos_nonneg; lia). lia.
  - rewrite npot_log2 by lia.
    set (k := Z.log2 (n - 1)).
    assert (Hk : 0 <= k) by apply Z.log2_nonneg.
    assert (Hspec : 2 ^ k <= n - 1 < 2 ^ (k + 1)).
    { unfold k. replace (k + 1) with (Z.succ (Z.log2 (n - 1))) by (unfold k; lia).
      apply Z.log2_spec. lia. }
    assert (Hk30 : k < 31).
    { apply (Z.pow_lt_mono_r_iff 2); lia. }
    assert (Hle : 2 ^ (k + 1) <= 2 ^ 31) by (apply Z.pow_le_mono_r; lia).
    rewrite to_unsigned_small by lia.
    exists (k + 1). repeat split; try lia.
    intros j Hj Hnj.
    apply Z.pow_le_mono_r; [lia |].
    assert (k < j); [| lia].
    apply (Z.pow_lt_mono_r_iff 2); lia.
Qed.

Lemma npot_overflow n : 2 ^ 31 < n < 2 ^ 32 -> npot n = 0.
Proof.
  intros Hn. rewrite npot_log2 by lia.
  assert (Hl : Z.log2 (n - 1) = 31).
  { apply Z.log2_unique; lia. }
  rewrite Hl. reflexivity.
Qed.

(** ** Count of trailing zeros *)

Lemma pow2_ctz_pos (m : nat) :
  exists p, 2 ^ Z.of_nat m = Zpos p /\ ctz_pos p = Z.of_nat m.
Proof.
  induction m as [| m [p [Hp Hc]]].
  - exists 1%positive. split; reflexivity.
  - exists (xO p). split.
    + rewrite Nat2Z.inj_succ, Z.pow_succ_r by lia. rewrite Hp. reflexivity.
    + cbn [ctz_pos]. rewrite Hc. lia.
Qed.

Lemma builtin_ctz_pow2 k : 0 <= k < 32 -> builtin_ctz (2 ^ k) = Ok k.
Proof.
  intros Hk. unfold builtin_ctz.
  assert (Hlt : 2 ^ k < 2 ^ 32) by (apply Z.pow_lt_mono_r; lia).
  assert (Hpos : 0 < 2 ^ k) by (apply Z.pow_pos_nonneg; lia).
  rewrite to_unsigned_small by lia.
  destruct (pow2_ctz_pos (Z.to_nat k)) as [p [Hp Hc]].
  rewrite Z2Nat.id in Hp, Hc by lia.
  rewrite Hp, Hc. reflexivity.
Qed.

Lemma builtin_ctz_zero x : to_unsigned x = 0 -> builtin_ctz x = Undefined.
Proof. intros H. unfold builtin_ctz. now rewrite H. Qed.

(** The lowest set bit of a positive number is at position [ctz_pos]. *)
Lemma ctz_pos_bit p : Z.testbit (Zpos p) (ctz_pos p) = true.
Proof.
  induction p as [p IH | p IH |]; try reflexivity.
  cbn [ctz_pos].
  assert (H0 : 0 <= ctz_pos p) by (clear; induction p; cbn [ctz_pos]; lia).
  replace (1 + ctz_pos p) with (Z.succ (ctz_pos p)) by lia.
  change (Zpos p~0) with (2 * Zpos p).
  rewrite Z.testbit_even_succ by lia. exact IH.
Qed.

Lemma ctz_pos_nonneg p : 0 <= ctz_pos p.
Proof. induction p; cbn [ctz_pos]; lia. Qed.

Lemma ctz_pos_below p j : 0 <= j < ctz_pos p -> Z.testbit (Zpos p) j = false.
Proof.
  revert j. induction p as [p IH | p IH |]; intros j Hj;
    cbn [ctz_pos] in Hj; try lia.
  change (Zpos p~0) with (2 * Zpos p).
  destruct (Z.eq_dec j 0) as [-> | Hne].
  - apply Z.testbit_even_0.
  - replace j with (Z.succ (j - 1)) by lia.
    rewrite Z.testbit_even_succ by lia. apply IH. lia.
Qed.

Lemma ctz_pos_lt_log p n : Zpos p < 2 ^ n -> 0 <= n -> ctz_pos p < n.
Proof.
  intros Hp Hn.
  destruct (Z_lt_le_dec (ctz_pos p) n) as [H | H]; [exact H | exfalso].
  pose proof (ctz_pos_bit p) as Hb.
  rewrite Z.bits_above_log2 in Hb; [discriminate | lia |].
  apply Z.lt_le_trans with n; [| exact H].
  apply Z.log2_lt_pow2; lia.
Qed.

(** ** Creation *)

Section Creation.

Context {heap : Type}.
Variable malloc : Z -> heap -> Z * heap.

Lemma npot_pow2_exponent n :
  1 <= n <= 2 ^ 31 ->
  exists l, 0 <= l <= 31 /\ npot n = 2 ^ l /\ smallest_pow2_ge (2 ^ l) n.
Proof.
  intros Hn. pose proof (npot_in_range n Hn) as Hs.
  destruct Hs as [k [Hk [Hp [Hge Hmin]]]].
  exists k. split; [| split; [exact Hp |]].
  - split; [exact Hk |].
    assert (H31 : npot n <= 2 ^ 31) by (apply Hmin; lia).
    rewrite Hp in H31.
    apply (Z.pow_le_mono_r_iff 2); lia.
  - rewrite <- Hp. exact (npot_in_range n Hn).
Qed.

Lemma pool_create_extra_ok dm n extra want h buf h' :
  1 <= n <= 2 ^ 31 ->
  malloc (to_ulong dm (sizeof_pool dm + SSG_SIZE dm * npot n + extra)) h
    = (buf, h') ->
  buf <> 0 ->
  exists l, 0 <= l <= 31 /\ npot n = 2 ^ l /\
    pool_create_extra malloc dm n extra want h
    = Ok (Node buf (ssg_empty dm) l NULL,
          (if want
           then Some (buf + sizeof_pool dm + to_ulong dm (SSG_SIZE dm * npot n))
           else None),
          h').
Proof.
  intros Hn Hm Hb.
  destruct (npot_pow2_exponent n Hn) as [l [Hl [Hp _]]].
  exists l. split; [exact Hl | split; [exact Hp |]].
  unfold pool_create_extra.
  replace (n =? 0) with false by (symmetry; apply Z.eqb_neq; lia).
  cbn [negb assert bind]. rewrite Hm.
  replace (buf =? 0) with false by (symmetry; apply Z.eqb_neq; lia).
  cbn [negb assert bind]. rewrite Hp, builtin_ctz_pow2 by lia.
  cbn [bind]. rewrite to_unsigned_small by lia. reflexivity.
Qed.

(** No pool is returned for a request above [2^31]. *)
Lemma pool_create_extra_overflow dm n extra want h r :
  2 ^ 31 < n < 2 ^ 32 ->
  pool_create_extra malloc dm n extra want h <> Ok r.
Proof.
  intros Hn. unfold pool_create_extra.
  destruct (negb (n =? 0)); cbn [assert bind]; [| discriminate].
  rewrite (npot_overflow n Hn).
  destruct (malloc _ h) as [buf h'].
  destruct (negb (buf =? 0)); cbn [assert bind]; [| discriminate].
  rewrite builtin_ctz_zero by reflexivity. cbn [bind]. discriminate.
Qed.

End Creation.

(** ** Slot sets *)

Lemma land_pow2_eqb x i :
  0 <= i -> (Z.land x (2 ^ i) =? 0) = negb (Z.testbit x i).
Proof.
  intros Hi. destruct (Z.testbit x i) eqn:E; cbn [negb].
  - apply Z.eqb_neq. intros H0.
    assert (Hb : Z.testbit (Z.land x (2 ^ i)) i = true).
    { rewrite Z.land_spec, E, Z.pow2_bits_true by lia. reflexivity. }
    rewrite H0, Z.bits_0 in Hb. discriminate.
  - apply Z.eqb_eq. apply Z.bits_inj'. intros j Hj.
    rewrite Z.land_spec, Z.bits_0, Z.pow2_bits_eqb by lia.
    destruct (Z.eqb_spec i j) as [-> | _].
    + rewrite E. reflexivity.
    + apply andb_false_r.
Qed.

Lemma ss_mask_pow2 dm idx :
  0 <= idx < SS_SIZE dm -> to_ulong dm (Z.shiftl 1 idx) = 2 ^ idx.
Proof.
  intros Hi. rewrite Z.shiftl_1_l. unfold to_ulong. apply Z.mod_small.
  split; [apply Z.pow_nonneg; lia |].
  apply Z.pow_lt_mono_r; [lia | | exact (proj2 Hi)].
  unfold long_bits. destruct dm; cbn; lia.
Qed.

Lemma ss_test_negb_bit dm x idx :
  0 <= idx < SS_SIZE dm -> ss_test dm x idx = negb (Z.testbit x idx).
Proof.
  intros Hi. unfold ss_test. cbv zeta.
  rewrite ss_mask_pow2 by exact Hi. apply land_pow2_eqb. lia.
Qed.

Lemma forallb_Z_range (P : Z -> bool) (n : nat) :
  forallb P (map Z.of_nat (seq 0 n)) = true ->
  forall i, 0 <= i < Z.of_nat n -> P i = true.
Proof.
  intros H i Hi. rewrite forallb_forall in H. apply H.
  apply in_map_iff. exists (Z.to_nat i). split; [lia |].
  apply in_seq. lia.
Qed.

Lemma ssg_empty_all_free dm i :
  0 <= i < 64 -> group_bit dm (ssg_empty dm) i = true.
Proof.
  intros Hi. revert i Hi.
  apply (forallb_Z_range (group_bit dm (ssg_empty dm)) 64).
  destruct dm; vm_compute; reflexivity.
Qed.

(** ** The claims on rounding and creation *)

(** C10: the rounding is computed in 32-bit wrap-around arithmetic.  For a
    request [n] with [1 <= n <= 2^31], [npot n] is the smallest power of two
    that is at least [n]; for every [n] strictly above [2^31] (and
    representable as [unsigned]) [npot n] is [0], and no call of
    [pool_create_extra] with such a size returns a pool: the effective
    precondition of creation is [n <= 2^31]. *)
Theorem npot_32bit_wraparound (n : Z) :
  (1 <= n <= 2 ^ 31 -> smallest_pow2_ge (npot n) n) /\
  (2 ^ 31 < n < 2 ^ 32 ->
     npot n = 0 /\
     forall (heap : Type) (malloc : Z -> heap -> Z * heap) dm extra want h r,
       pool_create_extra malloc dm n extra want h <> Ok r).
Proof.
  split.
  - apply npot_in_range.
  - intros Hn. split; [now apply npot_overflow |].
    intros. now apply pool_create_extra_overflow.
Qed.

Lemma npot_32bit_wraparound_witness :
  (1 <= 33 <= 2 ^ 31 /\ smallest_pow2_ge (npot 33) 33) /\
  (2 ^ 31 < 2 ^ 31 + 1 < 2 ^ 32 /\ npot (2 ^ 31 + 1) = 0).
Proof.
  split.
  - split; [lia |]. apply (proj1 (npot_32bit_wraparound 33)). lia.
  - split; [lia |]. apply (proj2 (npot_32bit_wraparound (2 ^ 31 + 1))). lia.
Defined.

(** C5, as amended: for every request [n] with [1 <= n <= 2^31] (and a
    successful [malloc]), [pool_create_extra] returns a node whose stride
    [2^l2s] is [npot n], the smallest power of two that is at least [n];
    in particular 24 gives 32, 32 gives 32 and 33 gives 64. *)
Theorem create_stride_smallest_pow2
    (heap : Type) (malloc : Z -> heap -> Z * heap) dm n extra want h :
  1 <= n <= 2 ^ 31 ->
  fst (malloc (to_ulong dm (sizeof_pool dm + SSG_SIZE dm * npot n + extra)) h)
    <> 0 ->
  exists buf slots l successor edata h',
    pool_create_extra malloc dm n extra want h
      = Ok (Node buf slots l successor, edata, h') /\
    2 ^ l = npot n /\
    smallest_pow2_ge (2 ^ l) n /\
    (n = 24 -> 2 ^ l = 32) /\ (n = 32 -> 2 ^ l = 32) /\ (n = 33 -> 2 ^ l = 64).
Proof.
  intros Hn Hm.
  destruct (malloc _ h) as [buf h'] eqn:Em. cbn [fst] in Hm.
  destruct (pool_create_extra_ok malloc dm n extra want h buf h' Hn Em Hm)
    as [l [Hl [Hp Hc]]].
  exists buf, (ssg_empty dm), l, NULL. eexists. exists h'.
  split; [exact Hc |].
  split; [now symmetry |].
  split; [rewrite <- Hp; now apply npot_in_range |].
  rewrite <- Hp. repeat split; intros ->; reflexivity.
Qed.

Lemma create_stride_smallest_pow2_witness :
  (1 <= 24 <= 2 ^ 31 /\
   fst (bump_malloc
          (to_ulong LP64 (sizeof_pool LP64 + SSG_SIZE LP64 * npot 24 + 0)) 4096)
     <> 0) /\
  exists buf slots l successor edata h',
    pool_create_extra bump_malloc LP64 24 0 false 4096
      = Ok (Node buf slots l successor, edata, h') /\
    2 ^ l = npot 24 /\
    smallest_pow2_ge (2 ^ l) 24 /\
    (24 = 24 -> 2 ^ l = 32) /\ (24 = 32 -> 2 ^ l = 32) /\ (24 = 33 -> 2 ^ l = 64).
Proof.
  assert (H1 : 1 <= 24 <= 2 ^ 31) by lia.
  assert (H2 : fst (bump_malloc
          (to_ulong LP64 (sizeof_pool LP64 + SSG_SIZE LP64 * npot 24 + 0)) 4096)
     <> 0) by (vm_compute; discriminate).
  split; [split; assumption |].
  exact (create_stride_smallest_pow2 Z bump_malloc LP64 24 0 false 4096 H1 H2).
Defined.

(** C5, as stated, fails above [2^31]: the request [2^31 + 1] is positive and
    fits [unsigned], its rounding wraps to 0, and creation returns no pool
    whose stride is the smallest power of two at least the request. *)
Lemma create_stride_counterexample :
  1 <= 2 ^ 31 + 1 < 2 ^ 32 /\
  npot (2 ^ 31 + 1) = 0 /\
  pool_create_extra bump_malloc LP64 (2 ^ 31 + 1) 0 false 4096 = Undefined /\
  ~ (exists buf slots l successor edata h',
       pool_create_extra bump_malloc LP64 (2 ^ 31 + 1) 0 false 4096
         = Ok (Node buf slots l successor, edata, h') /\
       smallest_pow2_ge (2 ^ l) (2 ^ 31 + 1)).
Proof.
  assert (E : pool_create_extra bump_malloc LP64 (2 ^ 31 + 1) 0 false 4096
              = Undefined) by (vm_compute; reflexivity).
  split; [lia |]. split; [vm_compute; reflexivity |]. split; [exact E |].
  intros (buf & slots & l & successor & edata & h' & H & _).
  rewrite E in H. discriminate.
Qed.

(** C8: a freshly created node has a slot group of exactly 64 bits whatever
    the width of [unsigned long], every one of its 64 slots is free, and its
    successor link is null. *)
Theorem fresh_pool_all_free
    (heap : Type) (malloc : Z -> heap -> Z * heap) dm n extra want h :
  1 <= n <= 2 ^ 31 ->
  fst (malloc (to_ulong dm (sizeof_pool dm + SSG_SIZE dm * npot n + extra)) h)
    <> 0 ->
  SSG_SIZE dm = 64 /\
  exists buf slots l edata h',
    pool_create_extra malloc dm n extra want h
      = Ok (Node buf slots l NULL, edata, h') /\
    ssg_wf dm slots /\
    (forall i, 0 <= i < 64 -> group_bit dm slots i = true) /\
    free_slot_count dm slots = 64%nat.
Proof.
  intros Hn Hm. split; [apply SSG_SIZE_64 |].
  destruct (malloc _ h) as [buf h'] eqn:Em. cbn [fst] in Hm.
  destruct (pool_create_extra_ok malloc dm n extra want h buf h' Hn Em Hm)
    as [l [Hl [Hp Hc]]].
  exists buf, (ssg_empty dm), l. eexists. exists h'.
  split; [exact Hc |].
  split; [| split].
  - split; [destruct dm; reflexivity |].
    destruct dm; repeat constructor; cbn; lia.
  - intros i Hi. now apply ssg_empty_all_free.
  - destruct dm; vm_compute; reflexivity.
Qed.

Lemma fresh_pool_all_free_witness :
  (1 <= 8 <= 2 ^ 31 /\
   fst (bump_malloc
          (to_ulong ILP32 (sizeof_pool ILP32 + SSG_SIZE ILP32 * npot 8 + 0)) 4096)
     <> 0) /\
  SSG_SIZE ILP32 = 64 /\
  exists buf slots l edata h',
    pool_create_extra bump_malloc ILP32 8 0 false 4096
      = Ok (Node buf slots l NULL, edata, h') /\
    ssg_wf ILP32 slots /\
    (forall i, 0 <= i < 64 -> group_bit ILP32 slots i = true) /\
    free_slot_count ILP32 slots = 64%nat.
Proof.
  assert (H1 : 1 <= 8 <= 2 ^ 31) by lia.
  assert (H2 : fst (bump_malloc
          (to_ulong ILP32 (sizeof_pool ILP32 + SSG_SIZE ILP32 * npot 8 + 0)) 4096)
     <> 0) by (vm_compute; discriminate).
  split; [split; assumption |].
  exact (fresh_pool_all_free Z bump_malloc ILP32 8 0 false 4096 H1 H2).
Defined.

(** ** The claims on slot sets and slot groups *)

(** C2, as amended: for every slot set [s] and every index below the width
    of the set, [ss_test] returns true exactly when bit [idx] of [s] is 0,
    that is when the slot is occupied (marked); bit 1 encodes a free slot. *)
Theorem ss_test_true_iff_occupied dm (s : ss_t) idx :
  0 <= idx < SS_SIZE dm ->
  (ss_test dm s idx = true <-> ss_slot_free s idx = false).
Proof.
  intros Hi. rewrite (ss_test_negb_bit dm s idx Hi). unfold ss_slot_free.
  destruct (Z.testbit s idx); cbn [negb]; split; congruence.
Qed.

Lemma ss_test_true_iff_occupied_witness :
  0 <= 3 < SS_SIZE LP64 /\
  (ss_test LP64 5 3 = true <-> ss_slot_free 5 3 = false).
Proof.
  assert (H : 0 <= 3 < SS_SIZE LP64) by (cbn; lia).
  split; [exact H |].
  exact (ss_test_true_iff_occupied LP64 5 3 H).
Defined.

(** C2, as stated, fails: in the all-free set [SS_EMPTY] slot 0 is free
    (its bit is 1) and [ss_test] returns false; once the slot is marked
    (its bit is 0, occupied) [ss_test] returns true. *)
Lemma ss_test_free_counterexample :
  ss_slot_free (SS_EMPTY LP64) 0 = true /\
  ss_test LP64 (SS_EMPTY LP64) 0 = false /\
  ss_slot_free (ss_mark LP64 (SS_EMPTY LP64) 0) 0 = false /\
  ss_test LP64 (ss_mark LP64 (SS_EMPTY LP64) 0) 0 = true.
Proof. repeat split; vm_compute; reflexivity. Qed.

(** X7: the group operations reach outside the array as soon as the index is at
    least the square of the number of words. *)
Lemma ssg_bucket_out_of_bounds dm (x : ssg_t) idx :
  Z.of_nat (length x) = SSG_COUNT dm ->
  SSG_COUNT dm * SSG_COUNT dm <= idx < 2 ^ 32 ->
  ssg_test dm x idx = Undefined /\
  ssg_mark dm x idx = Undefined /\
  ssg_unmark dm x idx = Undefined.
Proof.
  intros Hlen Hi.
  assert (Hc : 0 < SSG_COUNT dm) by (destruct dm; cbn; lia).
  assert (Hb : SSG_COUNT dm <= _ssg_bucket dm idx).
  { unfold _ssg_bucket. rewrite (to_unsigned_small idx) by lia.
    assert (Hq : SSG_COUNT dm <= idx / SSG_COUNT dm).
    { apply Z.div_le_lower_bound; lia. }
    assert (Hu : idx / SSG_COUNT dm <= idx).
    { apply Z.div_le_upper_bound; nia. }
    rewrite to_unsigned_small by lia. exact Hq. }
  assert (Hg : ssg_get x (_ssg_bucket dm idx) = Undefined).
  { unfold ssg_get.
    destruct (_ssg_bucket dm idx <? 0); [reflexivity |].
    destruct (nth_error x (Z.to_nat (_ssg_bucket dm idx))) eqn:E; [| reflexivity].
    assert (Hlt : (Z.to_nat (_ssg_bucket dm idx) < length x)%nat).
    { apply nth_error_Some. rewrite E. discriminate. }
    lia. }
  unfold ssg_test, ssg_mark, ssg_unmark. rewrite Hg. repeat split.
Qed.

(** C1 on the code: [_ssg_bucket] and [_ssg_subindex] divide by [SSG_COUNT],
    the number of words of the group, where the numbering of [ssg_find]
    needs [SS_SIZE], the number of bits of a word.  Under LP64 (one 64-bit
    word) index 1 selects word 1, outside the array; under ILP32 (two 32-bit
    words) index 2 selects word 1 at local bit 0, which is bit 32 of the
    group, and bit 2 is neither read nor written. *)
Theorem ssg_bucket_divides_by_word_count :
  (SSG_COUNT LP64 = 1 /\ SS_SIZE LP64 = 64 /\
   _ssg_bucket LP64 1 = 1 /\ _ssg_subindex LP64 1 = 0 /\
   ssg_test LP64 (ssg_empty LP64) 1 = Undefined /\
   ssg_mark LP64 (ssg_empty LP64) 1 = Undefined /\
   ssg_unmark LP64 (ssg_empty LP64) 1 = Undefined) /\
  (SSG_COUNT ILP32 = 2 /\ SS_SIZE ILP32 = 32 /\
   _ssg_bucket ILP32 2 = 1 /\ _ssg_subindex ILP32 2 = 0 /\
   ssg_mark ILP32 (ssg_empty ILP32) 2 = Ok [2 ^ 32 - 1; 2 ^ 32 - 2] /\
   group_bit ILP32 [2 ^ 32 - 1; 2 ^ 32 - 2] 2 = true /\
   group_bit ILP32 [2 ^ 32 - 1; 2 ^ 32 - 2] 32 = false /\
   group_bit ILP32 [2 ^ 32 - 5; 2 ^ 32 - 1] 2 = false /\
   ssg_test ILP32 [2 ^ 32 - 5; 2 ^ 32 - 1] 2 = Ok false /\
   ssg_unmark ILP32 [2 ^ 32 - 5; 2 ^ 32 - 2] 2 = Ok [2 ^ 32 - 5; 2 ^ 32 - 1] /\
   ssg_mark ILP32 (ssg_empty ILP32) 4 = Undefined).
Proof. split; repeat split; vm_compute; reflexivity. Qed.

(** [ssg_find] on a group whose non-zero words have a set bit among their
    low 32 bits: the scan of [__builtin_ctz] sees that bit. *)
Lemma ssg_find_lowest_of_low_half dm (x : ssg_t) :
  ssg_wf dm x ->
  ssg_is_full x = false ->
  Forall (fun s => s <> 0 -> to_unsigned s <> 0) x ->
  exists i, ssg_find dm x = Ok i /\ 0 <= i < 64 /\
            group_bit dm x i = true /\
            forall j, 0 <= j < i -> group_bit dm x j = false.
Proof.
  intros [Hlen Hwf] Hfull Hlow.
  assert (Hctz : forall s, 0 < s -> to_unsigned s <> 0 ->
            exists c, ss_find s = Ok c /\ 0 <= c < 32 /\
                      Z.testbit s c = true /\
                      forall j, 0 <= j < c -> Z.testbit s j = false).
  { intros s Hs Hu. unfold ss_find, builtin_ctz.
    pose proof (to_unsigned_range s) as Hr.
    destruct (to_unsigned s) as [| p | p] eqn:E; try lia.
    assert (Hc : 0 <= ctz_pos p < 32).
    { split; [apply ctz_pos_nonneg | apply ctz_pos_lt_log; lia]. }
    exists (ctz_pos p). split; [reflexivity | split; [exact Hc |]].
    unfold to_unsigned, int_bits in E. split.
    - rewrite <- (Z.mod_pow2_bits_low s 32) by lia. rewrite E.
      apply ctz_pos_bit.
    - intros j Hj. rewrite <- (Z.mod_pow2_bits_low s 32) by lia. rewrite E.
      now apply ctz_pos_below. }
  destruct dm.
  - (* ILP32: two words *)
    destruct x as [| a [| b [| c x]]]; cbn in Hlen; try lia.
    inversion Hwf as [| ? ? Ha Hwf']; subst.
    inversion Hwf' as [| ? ? Hb _]; subst.
    inversion Hlow as [| ? ? Hla Hlow']; subst.
    inversion Hlow' as [| ? ? Hlb _]; subst.
    change (2 ^ long_bits ILP32) with (2 ^ 32) in Ha, Hb.
    unfold ssg_find, ssg_find_from, SS_FULL, group_bit, ss_slot_free.
    change (SS_SIZE ILP32) with 32.
    destruct (Z.eqb_spec a 0) as [-> | Hna]; cbn [negb].
    + destruct (Z.eqb_spec b 0) as [-> | Hnb]; cbn [negb].
      * cbn in Hfull. discriminate.
      * destruct (Hctz b ltac:(lia) (Hlb Hnb)) as [c [Hf [Hc [Hbit Hlo]]]].
        rewrite Hf. cbn [bind]. exists (32 + c).
        rewrite to_int_small by lia.
        split; [reflexivity | split; [lia | split]].
        -- replace ((32 + c) / 32) with 1
             by (apply Z.div_unique with c; lia).
           replace ((32 + c) mod 32) with c
             by (apply Z.mod_unique with 1; lia).
           exact Hbit.
        -- intros j Hj. destruct (Z_lt_le_dec j 32) as [Hlt | Hge].
           ++ rewrite (Z.div_small j 32) by lia. apply Z.bits_0.
           ++ replace (j / 32) with 1
                by (apply Z.div_unique with (j - 32); lia).
              replace (j mod 32) with (j - 32)
                by (apply Z.mod_unique with 1; lia).
              apply Hlo. lia.
    + destruct (Hctz a ltac:(lia) (Hla Hna)) as [c [Hf [Hc [Hbit Hlo]]]].
      rewrite Hf. cbn [bind]. exists c.
      rewrite to_int_small by lia.
      split; [reflexivity | split; [lia | split]].
      * rewrite (Z.div_small c 32), (Z.mod_small c 32) by lia. exact Hbit.
      * intros j Hj.
        rewrite (Z.div_small j 32), (Z.mod_small j 32) by lia.
        apply Hlo. lia.
  - (* LP64: one word *)
    destruct x as [| a [| b x]]; cbn in Hlen; try lia.
    inversion Hwf as [| ? ? Ha _]; subst.
    inversion Hlow as [| ? ? Hla _]; subst.
    change (2 ^ long_bits LP64) with (2 ^ 64) in Ha.
    unfold ssg_find, ssg_find_from, SS_FULL, group_bit, ss_slot_free.
    change (SS_SIZE LP64) with 64.
    destruct (Z.eqb_spec a 0) as [-> | Hna]; cbn [negb].
    + cbn in Hfull. discriminate.
    + destruct (Hctz a ltac:(lia) (Hla Hna)) as [c [Hf [Hc [Hbit Hlo]]]].
      rewrite Hf. cbn [bind]. exists c.
      rewrite to_int_small by lia.
      split; [reflexivity | split; [lia | split]].
      * rewrite (Z.div_small c 64), (Z.mod_small c 64) by lia. exact Hbit.
      * intros j Hj.
        rewrite (Z.div_small j 64), (Z.mod_small j 64) by lia.
        apply Hlo. lia.
Qed.

(** X5: the slot [ssg_find] returns is the lowest free bit of the group whenever
    the word it stops at has a set bit among its low 32 bits, which is every
    non-zero word under ILP32. *)
Theorem ssg_find_lowest_free dm (x : ssg_t) :
  ssg_wf dm x ->
  ssg_is_full x = false ->
  Forall (fun s => s <> 0 -> to_unsigned s <> 0) x ->
  exists i, ssg_find dm x = Ok i /\ 0 <= i < 64 /\
            group_bit dm x i = true /\
            forall j, 0 <= j < i -> group_bit dm x j = false.
Proof. exact (ssg_find_lowest_of_low_half dm x). Qed.

(** Outside that domain: [ss_find] hands the 64-bit word of LP64 to
    [__builtin_ctz], whose parameter is a 32-bit [unsigned int].  With slots
    0..31 occupied and slots 32..63 free the value scanned is 0, for which
    the builtin promises no result. *)
Lemma ssg_find_zero_low_half_on_LP64 :
  ssg_wf LP64 [2 ^ 64 - 2 ^ 32] /\
  ssg_is_full [2 ^ 64 - 2 ^ 32] = false /\
  group_bit LP64 [2 ^ 64 - 2 ^ 32] 32 = true /\
  to_unsigned (2 ^ 64 - 2 ^ 32) = 0 /\
  ssg_find LP64 [2 ^ 64 - 2 ^ 32] = Undefined.
Proof.
  split.
  - split; [reflexivity |]. repeat constructor; cbn; lia.
  - repeat split; vm_compute; reflexivity.
Qed.

(** ** Chains of nodes *)

Lemma npot_pow2 v : 0 <= v <= 31 -> npot (2 ^ v) = 2 ^ v.
Proof.
  intros Hv.
  assert (H1 : 1 <= 2 ^ v) by (pose proof (Z.pow_pos_nonneg 2 v); lia).
  assert (H2 : 2 ^ v <= 2 ^ 31) by (apply Z.pow_le_mono_r; lia).
  destruct (npot_in_range (2 ^ v) (conj H1 H2)) as [k [Hk [Hp [Hge Hmin]]]].
  specialize (Hmin v (proj1 Hv) (Z.le_refl _)). lia.
Qed.

Lemma shiftl_1_unsigned v : 0 <= v <= 31 -> to_unsigned (Z.shiftl 1 v) = 2 ^ v.
Proof.
  intros Hv. rewrite Z.shiftl_1_l. apply to_unsigned_small.
  split; [apply Z.pow_nonneg; lia | apply Z.pow_lt_mono_r; lia].
Qed.

Lemma builtin_ctz_range x l : builtin_ctz x = Ok l -> 0 <= l <= 31.
Proof.
  unfold builtin_ctz. pose proof (to_unsigned_range x) as Hr.
  destruct (to_unsigned x) as [| p | p]; try discriminate.
  intros H. inversion H; subst.
  pose proof (ctz_pos_nonneg p). pose proof (ctz_pos_lt_log p 32). lia.
Qed.

Lemma to_int_shiftl_multiple pos v :
  0 <= v <= 31 -> exists c, to_int (Z.shiftl pos v) = c * 2 ^ v.
Proof.
  intros Hv. rewrite Z.shiftl_mul_pow2 by lia.
  assert (H32 : 2 ^ 32 = 2 ^ (32 - v) * 2 ^ v).
  { rewrite <- Z.pow_add_r by lia. f_equal. lia. }
  unfold to_int, to_unsigned, int_bits.
  rewrite Z.mod_eq by lia.
  set (q := pos * 2 ^ v / 2 ^ 32).
  destruct (_ <? _).
  - exists (pos - 2 ^ (32 - v) * q). rewrite H32. ring.
  - exists (pos - 2 ^ (32 - v) * q - 2 ^ (32 - v)). rewrite H32. ring.
Qed.

Lemma ssg_empty_not_full dm : ssg_is_full (ssg_empty dm) = false.
Proof. destruct dm; reflexivity. Qed.

Lemma ssg_empty_find dm : ssg_find dm (ssg_empty dm) = Ok 0.
Proof. destruct dm; reflexivity. Qed.

Lemma ssg_empty_mark dm :
  ssg_mark dm (ssg_empty dm) 0
  = Ok (list_set (ssg_empty dm) 0 (2 ^ long_bits dm - 2)).
Proof. destruct dm; reflexivity. Qed.

Section Chains.

Context {heap : Type}.
Variable malloc : Z -> heap -> Z * heap.
Variable dm : data_model.

(** Whatever the request, a pool that [pool_create_extra] returns is a single
    node with an all-free group and an exponent below 32. *)
Lemma pool_create_extra_inv n extra want h pl edata h' :
  pool_create_extra malloc dm n extra want h = Ok (pl, edata, h') ->
  exists buf l, pl = Node buf (ssg_empty dm) l NULL /\ 0 <= l <= 31 /\ buf <> 0.
Proof.
  unfold pool_create_extra.
  destruct (negb (n =? 0)); cbn [assert bind]; [| discriminate].
  destruct (malloc _ h) as [buf h1].
  destruct (Z.eqb_spec buf 0) as [| Hb]; cbn [negb assert bind]; [discriminate |].
  destruct (builtin_ctz (npot n)) as [l | | |] eqn:El; cbn [bind];
    try discriminate.
  intros H. inversion H; subst.
  pose proof (builtin_ctz_range _ _ El) as Hl.
  exists buf, l. rewrite to_unsigned_small by lia.
  split; [reflexivity | split; [lia | exact Hb]].
Qed.

(** The successor is created for the size [1 << l2s]: it gets the exponent
    of the node that creates it. *)
Lemma pool_create_same_l2s v h s h1 :
  0 <= v <= 31 ->
  pool_create malloc dm (to_unsigned (Z.shiftl 1 v)) h = Ok (s, h1) ->
  exists buf, s = Node buf (ssg_empty dm) v NULL /\
              malloc (to_ulong dm (sizeof_pool dm + SSG_SIZE dm * 2 ^ v + 0)) h
                = (buf, h1) /\ buf <> 0.
Proof.
  intros Hv. rewrite shiftl_1_unsigned by exact Hv.
  unfold pool_create, pool_create_extra.
  destruct (negb (2 ^ v =? 0)); cbn [assert bind]; [| discriminate].
  rewrite npot_pow2 by exact Hv.
  destruct (malloc _ h) as [buf h2].
  destruct (Z.eqb_spec buf 0) as [| Hb]; cbn [negb assert bind]; [discriminate |].
  rewrite builtin_ctz_pow2 by lia. cbn [bind].
  rewrite to_unsigned_small by lia.
  intros H. inversion H; subst. exists buf.
  split; [reflexivity | split; [reflexivity | exact Hb]].
Qed.

Lemma pool_create_pow2_ok v h buf h1 :
  0 <= v <= 31 ->
  malloc (to_ulong dm (sizeof_pool dm + SSG_SIZE dm * 2 ^ v + 0)) h = (buf, h1) ->
  buf <> 0 ->
  pool_create malloc dm (to_unsigned (Z.shiftl 1 v)) h
  = Ok (Node buf (ssg_empty dm) v NULL, h1).
Proof.
  intros Hv Hm Hb. rewrite shiftl_1_unsigned by exact Hv.
  assert (H1 : 1 <= 2 ^ v) by (pose proof (Z.pow_pos_nonneg 2 v); lia).
  assert (H2 : 2 ^ v <= 2 ^ 31) by (apply Z.pow_le_mono_r; lia).
  unfold pool_create, pool_create_extra.
  replace (2 ^ v =? 0) with false by (symmetry; apply Z.eqb_neq; lia).
  cbn [negb assert bind]. rewrite npot_pow2 by exact Hv. rewrite Hm.
  replace (buf =? 0) with false by (symmetry; apply Z.eqb_neq; lia).
  cbn [negb assert bind]. rewrite builtin_ctz_pow2 by lia. cbn [bind].
  rewrite to_unsigned_small by lia. reflexivity.
Qed.

(** What a normal return of [pool_alloc] says about the address and the
    chain: every node keeps the exponent [v], and the address is the buffer
    base of one of the nodes plus a multiple of [2^v]. *)
Lemma pool_alloc_ok_inv fuel :
  forall pl h loc pl' h' v,
    0 <= v <= 31 ->
    chain_l2s_all v pl ->
    pool_alloc malloc dm fuel pl h = Ok (loc, pl', h') ->
    chain_l2s_all v pl' /\
    exists addr c, in_chain addr v pl' /\ loc = pool_source dm addr + c * 2 ^ v.
Proof.
  induction fuel as [| fuel IH]; intros pl h loc pl' h' v Hv Hu Ha;
    [discriminate |].
  destruct pl as [| addr slots l successor]; [discriminate |].
  destruct Hu as [Hl Hu]. subst l.
  cbn [pool_alloc] in Ha.
  destruct (ssg_is_full slots).
  - assert (Hs : exists s h1,
               chain_l2s_all v s /\
               pool_alloc malloc dm fuel s h1 = Ok (loc, match pl' with
                                                         | Node _ _ _ s'' => s''
                                                         | NULL => NULL
                                                         end, h') /\
               exists s'', pl' = Node addr slots v s'').
    { destruct successor as [| a2 sl2 l2 s2].
      - bind_ok (pool_create malloc dm (to_unsigned (Z.shiftl 1 v)) h)
          as [[s h1] | | |] eqn:Ec in Ha.
        bind_ok (pool_alloc malloc dm fuel s h1)
          as [[[loc1 s''] h2] | | |] eqn:Ea in Ha.
        inversion Ha; subst.
        destruct (pool_create_same_l2s v h s h1 Hv Ec) as [buf [-> _]].
        exists (Node buf (ssg_empty dm) v NULL), h1.
        repeat split; [exact Ea | now exists s''].
      - cbn [bind] in Ha.
        bind_ok (pool_alloc malloc dm fuel (Node a2 sl2 l2 s2) h)
          as [[[loc1 s''] h2] | | |] eqn:Ea in Ha.
        inversion Ha; subst.
        exists (Node a2 sl2 l2 s2), h.
        repeat split; [apply Hu | apply Hu | exact Ea | now exists s'']. }
    destruct Hs as (s & h1 & Hus & Ea & s'' & ->).
    destruct (IH s h1 loc s'' h' v Hv Hus Ea) as [Hu' (a & c & Hin & Hloc)].
    split; [split; [reflexivity | exact Hu'] |].
    exists a, c. split; [right; exact Hin | exact Hloc].
  - bind_ok (ssg_find dm slots) as [pos | | |] in Ha.
    bind_ok (ssg_mark dm slots pos) as [slots' | | |] in Ha.
    inversion Ha; subst.
    split; [split; [reflexivity | exact Hu] |].
    destruct (to_int_shiftl_multiple pos v Hv) as [c Hc].
    exists addr, c. split; [left; split; reflexivity | now rewrite Hc].
Qed.

Lemma pool_free_l2s_uniform :
  forall pl ptr pl' v,
    chain_l2s_all v pl -> pool_free dm pl ptr = Ok pl' -> chain_l2s_all v pl'.
Proof.
  induction pl as [| addr slots l successor IH]; intros ptr pl' v Hu Hf;
    [discriminate |].
  destruct Hu as [Hl Hu]. subst l. cbn [pool_free] in Hf.
  destruct (ptr =? 0);
    [inversion Hf; subst; split; [reflexivity | assumption] |].
  destruct (_ && _).
  - destruct (ssg_test dm slots _) as [t | | |]; cbn [bind] in Hf;
      try discriminate.
    destruct t; cbn [assert bind] in Hf; try discriminate.
    destruct (ssg_unmark dm slots _) as [slots' | | |]; cbn [bind] in Hf;
      try discriminate.
    inversion Hf; subst. split; [reflexivity | exact Hu].
  - destruct successor as [| a2 sl2 l2 s2]; [discriminate |].
    bind_ok (pool_free dm (Node a2 sl2 l2 s2) ptr) as [s' | | |] eqn:E in Hf.
    inversion Hf; subst. split; [reflexivity |].
    exact (IH ptr s' v Hu E).
Qed.

(** Every chain a caller can observe has one exponent throughout. *)
Lemma reachable_l2s_uniform pl :
  reachable malloc dm pl -> exists v, 0 <= v <= 31 /\ chain_l2s_all v pl.
Proof.
  induction 1 as [n extra want h pl edata h' Hc
                 | fuel pl h loc pl' h' _ [v [Hv Hu]] Ha
                 | pl ptr pl' _ [v [Hv Hu]] Hf].
  - destruct (pool_create_extra_inv _ _ _ _ _ _ _ Hc) as (buf & l & -> & Hl & _).
    exists l. repeat split; lia.
  - exists v. split; [exact Hv |].
    exact (proj1 (pool_alloc_ok_inv fuel pl h loc pl' h' v Hv Hu Ha)).
  - exists v. split; [exact Hv |].
    exact (pool_free_l2s_uniform pl ptr pl' v Hu Hf).
Qed.

(** A full node without successor: one is created and serves the request. *)
Lemma pool_alloc_creates_successor fuel addr slots v h buf h1 :
  0 <= v <= 31 ->
  ssg_is_full slots = true ->
  malloc (to_ulong dm (sizeof_pool dm + SSG_SIZE dm * 2 ^ v + 0)) h = (buf, h1) ->
  buf <> 0 ->
  pool_alloc malloc dm (S (S fuel)) (Node addr slots v NULL) h
  = Ok (pool_source dm buf,
        Node addr slots v
          (Node buf (list_set (ssg_empty dm) 0 (2 ^ long_bits dm - 2)) v NULL),
        h1).
Proof.
  intros Hv Hfull Hm Hb.
  cbn [pool_alloc]. rewrite Hfull.
  rewrite (pool_create_pow2_ok v h buf h1 Hv Hm Hb). cbn [bind].
  rewrite ssg_empty_not_full, ssg_empty_find. cbn [bind].
  rewrite ssg_empty_mark. cbn [bind].
  rewrite Z.shiftl_0_l. change (to_int 0) with 0. rewrite Z.add_0_r.
  reflexivity.
Qed.

End Chains.

(** ** Release: what holds of [pool_free] whatever the group operations do *)

Lemma pool_free_null dm addr slots l successor :
  pool_free dm (Node addr slots l successor) 0 = Ok (Node addr slots l successor).
Proof. reflexivity. Qed.

Lemma pool_free_unowned_fatal dm pl ptr :
  ptr <> 0 -> chain_owns dm pl ptr = false -> pool_free dm pl ptr = AssertFail.
Proof.
  intros Hp. induction pl as [| addr slots l successor IH]; intros Ho;
    [reflexivity |].
  cbn [chain_owns] in Ho. apply orb_false_iff in Ho. destruct Ho as [Ho1 Ho2].
  cbn [pool_free]. replace (ptr =? 0) with false by (symmetry; now apply Z.eqb_neq).
  unfold node_owns in Ho1. rewrite Ho1.
  destruct successor as [| a2 sl2 l2 s2]; [reflexivity |].
  rewrite (IH Ho2). reflexivity.
Qed.

Lemma pool_free_descends dm addr slots l successor ptr :
  ptr <> 0 -> node_owns dm addr l ptr = false -> successor <> NULL ->
  pool_free dm (Node addr slots l successor) ptr
  = (successor' <- pool_free dm successor ptr ;;
     Ok (Node addr slots l successor')).
Proof.
  intros Hp Ho Hs. cbn [pool_free].
  replace (ptr =? 0) with false by (symmetry; now apply Z.eqb_neq).
  unfold node_owns in Ho. rewrite Ho.
  destruct successor; [contradiction | reflexivity].
Qed.

Lemma pool_free_owner dm addr slots l successor ptr :
  ptr <> 0 -> node_owns dm addr l ptr = true ->
  pool_free dm (Node addr slots l successor) ptr
  = (let slot := to_int (Z.shiftr (to_unsigned (ptr - pool_source dm addr)) l) in
     t <- ssg_test dm slots slot ;;
     _ <- assert t ;;
     slots' <- ssg_unmark dm slots slot ;;
     Ok (Node addr slots' l successor)).
Proof.
  intros Hp Ho. cbn [pool_free].
  replace (ptr =? 0) with false by (symmetry; now apply Z.eqb_neq).
  unfold node_owns in Ho. rewrite Ho. reflexivity.
Qed.

(** A node that is not full serves the request itself: the successor is
    neither consulted nor changed. *)
Lemma pool_alloc_not_full (heap : Type) (malloc : Z -> heap -> Z * heap)
    dm fuel addr slots l successor h :
  ssg_is_full slots = false ->
  pool_alloc malloc dm (S fuel) (Node addr slots l successor) h
  = (pos <- ssg_find dm slots ;;
     slots' <- ssg_mark dm slots pos ;;
     Ok (pool_source dm addr + to_int (Z.shiftl pos l),
         Node addr slots' l successor, h)).
Proof. intros Hf. cbn [pool_alloc]. rewrite Hf. reflexivity. Qed.

(** ** The claims on the pool *)

(** C3 on the code: [pool_free] tests and unmarks the slot through
    [ssg_test] and [ssg_unmark], which do not address slot [index].  On a
    pool built by the code itself, a pointer into the buffer of the node at
    a slot that is free makes the test read outside the array of the group,
    where the double-free assertion should fail: slot 1 after one allocation
    under LP64, slot 4 after two allocations under ILP32. *)
Theorem pool_free_reads_outside_group :
  (reachable bump_malloc LP64 (Node 4096 [2 ^ 64 - 2] 3 NULL) /\
   node_owns LP64 4096 3 (4096 + 24 + 8) = true /\
   to_int (Z.shiftr (to_unsigned (4096 + 24 + 8 - pool_source LP64 4096)) 3) = 1 /\
   group_bit LP64 [2 ^ 64 - 2] 1 = true /\
   ssg_test LP64 [2 ^ 64 - 2] 1 = Undefined /\
   pool_free LP64 (Node 4096 [2 ^ 64 - 2] 3 NULL) (4096 + 24 + 8) = Undefined) /\
  (reachable bump_malloc ILP32 (Node 4096 [2 ^ 32 - 4; 2 ^ 32 - 1] 3 NULL) /\
   node_owns ILP32 4096 3 (4096 + 16 + 32) = true /\
   to_int (Z.shiftr (to_unsigned (4096 + 16 + 32 - pool_source ILP32 4096)) 3) = 4 /\
   group_bit ILP32 [2 ^ 32 - 4; 2 ^ 32 - 1] 4 = true /\
   ssg_test ILP32 [2 ^ 32 - 4; 2 ^ 32 - 1] 4 = Undefined /\
   pool_free ILP32 (Node 4096 [2 ^ 32 - 4; 2 ^ 32 - 1] 3 NULL) (4096 + 16 + 32)
     = Undefined).
Proof.
  assert (R64 : reachable bump_malloc LP64 (Node 4096 [2 ^ 64 - 2] 3 NULL)).
  { apply (reach_alloc bump_malloc LP64 1 (Node 4096 [2 ^ 64 - 1] 3 NULL)
             4640 4120 _ 4640).
    - apply (reach_create bump_malloc LP64 8 0 false 4096 _ None 4640).
      vm_compute. reflexivity.
    - vm_compute. reflexivity. }
  assert (R32 : reachable bump_malloc ILP32
                  (Node 4096 [2 ^ 32 - 4; 2 ^ 32 - 1] 3 NULL)).
  { apply (reach_alloc bump_malloc ILP32 1
             (Node 4096 [2 ^ 32 - 2; 2 ^ 32 - 1] 3 NULL) 4624 4120 _ 4624).
    - apply (reach_alloc bump_malloc ILP32 1
               (Node 4096 [2 ^ 32 - 1; 2 ^ 32 - 1] 3 NULL) 4624 4112 _ 4624).
      + apply (reach_create bump_malloc ILP32 8 0 false 4096 _ None 4624).
        vm_compute. reflexivity.
      + vm_compute. reflexivity.
    - vm_compute. reflexivity. }
  split; (split; [assumption |]); repeat split; vm_compute; reflexivity.
Qed.

(** C6 on the code: the slot that [ssg_find] returns is marked through
    [ssg_mark], which does not address it.  Under LP64 the second allocation
    from a fresh pool writes outside the array of the group.  Under ILP32
    the first three allocations return slots 0, 1 and 2, slot 2 stays free
    in the group, and the fourth allocation returns the address of slot 2
    again; freeing slot 1 at that point does make the next allocation
    return slot 1. *)
Theorem pool_alloc_second_and_fourth_call :
  (pool_create bump_malloc LP64 8 4096
     = Ok (Node 4096 [2 ^ 64 - 1] 3 NULL, 4640) /\
   (forall fuel,
      pool_alloc bump_malloc LP64 (S fuel) (Node 4096 [2 ^ 64 - 1] 3 NULL) 4640
      = Ok (4120, Node 4096 [2 ^ 64 - 2] 3 NULL, 4640)) /\
   (forall fuel,
      pool_alloc bump_malloc LP64 (S fuel) (Node 4096 [2 ^ 64 - 2] 3 NULL) 4640
      = Undefined)) /\
  (pool_create bump_malloc ILP32 8 4096
     = Ok (Node 4096 [2 ^ 32 - 1; 2 ^ 32 - 1] 3 NULL, 4624) /\
   (forall fuel,
      pool_alloc bump_malloc ILP32 (S fuel)
        (Node 4096 [2 ^ 32 - 1; 2 ^ 32 - 1] 3 NULL) 4624
      = Ok (4112, Node 4096 [2 ^ 32 - 2; 2 ^ 32 - 1] 3 NULL, 4624)) /\
   (forall fuel,
      pool_alloc bump_malloc ILP32 (S fuel)
        (Node 4096 [2 ^ 32 - 2; 2 ^ 32 - 1] 3 NULL) 4624
      = Ok (4120, Node 4096 [2 ^ 32 - 4; 2 ^ 32 - 1] 3 NULL, 4624)) /\
   (forall fuel,
      pool_alloc bump_malloc ILP32 (S fuel)
        (Node 4096 [2 ^ 32 - 4; 2 ^ 32 - 1] 3 NULL) 4624
      = Ok (4128, Node 4096 [2 ^ 32 - 4; 2 ^ 32 - 2] 3 NULL, 4624)) /\
   (forall fuel,
      pool_alloc bump_malloc ILP32 (S fuel)
        (Node 4096 [2 ^ 32 - 4; 2 ^ 32 - 2] 3 NULL) 4624
      = Ok (4128, Node 4096 [2 ^ 32 - 4; 2 ^ 32 - 2] 3 NULL, 4624)) /\
   pool_free ILP32 (Node 4096 [2 ^ 32 - 4; 2 ^ 32 - 2] 3 NULL) 4120
     = Ok (Node 4096 [2 ^ 32 - 2; 2 ^ 32 - 2] 3 NULL) /\
   (forall fuel,
      pool_alloc bump_malloc ILP32 (S fuel)
        (Node 4096 [2 ^ 32 - 2; 2 ^ 32 - 2] 3 NULL) 4624
      = Ok (4120, Node 4096 [2 ^ 32 - 4; 2 ^ 32 - 2] 3 NULL, 4624))).
Proof. split; repeat split; intros; vm_compute; reflexivity. Qed.

(** C4: when [pool_alloc] reaches a node whose group is full and that has
    no successor, it creates one for the size [1 << l2s], so with the same
    exponent, and serves the request from it; and whatever [pool_alloc] and
    [pool_free] return normally, every node of the chain still has the
    exponent [v] the chain had before. *)
Theorem successor_keeps_object_size
    (heap : Type) (malloc : Z -> heap -> Z * heap) dm v pl :
  0 <= v <= 31 ->
  chain_l2s_all v pl ->
  (forall fuel addr slots h,
     pl = Node addr slots v NULL ->
     ssg_is_full slots = true ->
     fst (malloc (to_ulong dm (sizeof_pool dm + SSG_SIZE dm * 2 ^ v + 0)) h) <> 0 ->
     exists buf slots1 h',
       malloc (to_ulong dm (sizeof_pool dm + SSG_SIZE dm * 2 ^ v + 0)) h
         = (buf, h') /\
       ssg_mark dm (ssg_empty dm) 0 = Ok slots1 /\
       pool_alloc malloc dm (S (S fuel)) pl h
         = Ok (pool_source dm buf,
               Node addr slots v (Node buf slots1 v NULL), h')) /\
  (forall fuel h loc pl' h',
     pool_alloc malloc dm fuel pl h = Ok (loc, pl', h') ->
     chain_l2s_all v pl') /\
  (forall ptr pl', pool_free dm pl ptr = Ok pl' -> chain_l2s_all v pl').
Proof.
  intros Hv Hu. split; [| split].
  - intros fuel addr slots h -> Hfull Hm.
    destruct (malloc _ h) as [buf h'] eqn:Em. cbn [fst] in Hm.
    exists buf, (list_set (ssg_empty dm) 0 (2 ^ long_bits dm - 2)), h'.
    split; [reflexivity |]. split; [apply ssg_empty_mark |].
    now apply pool_alloc_creates_successor.
  - intros fuel h loc pl' h' Ha.
    exact (proj1 (pool_alloc_ok_inv malloc dm fuel pl h loc pl' h' v Hv Hu Ha)).
  - intros ptr pl' Hf.
    exact (pool_free_l2s_uniform dm pl ptr pl' v Hu Hf).
Qed.

Lemma successor_keeps_object_size_witness :
  (0 <= 3 <= 31 /\ chain_l2s_all 3 (Node 4096 [0] 3 NULL)) /\
  pool_alloc bump_malloc LP64 2 (Node 4096 [0] 3 NULL) 8192
    = Ok (8216, Node 4096 [0] 3 (Node 8192 [2 ^ 64 - 2] 3 NULL), 8736) /\
  chain_l2s_all 3 (Node 4096 [0] 3 (Node 8192 [2 ^ 64 - 2] 3 NULL)).
Proof.
  assert (H1 : 0 <= 3 <= 31) by lia.
  assert (H2 : chain_l2s_all 3 (Node 4096 [0] 3 NULL))
    by (split; [reflexivity | exact I]).
  split; [split; assumption |].
  destruct (successor_keeps_object_size Z bump_malloc LP64 3
              (Node 4096 [0] 3 NULL) H1 H2) as [Hnew [Halloc _]].
  destruct (Hnew 0%nat 4096 [0] 8192 eq_refl eq_refl)
    as (buf & slots1 & h' & Em & Ek & Ea).
  { vm_compute. discriminate. }
  assert (E : pool_alloc bump_malloc LP64 2 (Node 4096 [0] 3 NULL) 8192
              = Ok (8216, Node 4096 [0] 3 (Node 8192 [2 ^ 64 - 2] 3 NULL), 8736))
    by (vm_compute; reflexivity).
  split; [exact E |].
  exact (Halloc 2%nat 8192 _ _ _ E).
Defined.

(** C9, as amended: every address [pool_alloc] returns is the buffer base
    of a node of the chain (the address of the node plus [sizeof(pool)]) plus
    a multiple of the stride [2^v]; it is therefore congruent to that base
    modulo the stride, and aligned to the stride exactly when the base is. *)
Theorem alloc_address_congruent_to_base
    (heap : Type) (malloc : Z -> heap -> Z * heap) dm fuel pl h loc pl' h' v :
  0 <= v <= 31 ->
  chain_l2s_all v pl ->
  pool_alloc malloc dm fuel pl h = Ok (loc, pl', h') ->
  exists addr,
    in_chain addr v pl' /\
    (loc - pool_source dm addr) mod 2 ^ v = 0 /\
    loc mod 2 ^ v = pool_source dm addr mod 2 ^ v.
Proof.
  intros Hv Hu Ha.
  destruct (pool_alloc_ok_inv malloc dm fuel pl h loc pl' h' v Hv Hu Ha)
    as [_ (addr & c & Hin & ->)].
  exists addr. split; [exact Hin |].
  assert (Hpos : 0 < 2 ^ v) by (apply Z.pow_pos_nonneg; lia).
  split.
  - replace (pool_source dm addr + c * 2 ^ v - pool_source dm addr)
      with (c * 2 ^ v) by ring.
    apply Z.mod_mul. lia.
  - apply Z.mod_add. lia.
Qed.

Lemma alloc_address_congruent_to_base_witness :
  (0 <= 5 <= 31 /\
   chain_l2s_all 5 (Node 4096 [2 ^ 32 - 2; 2 ^ 32 - 1] 5 NULL) /\
   pool_alloc bump_malloc ILP32 1 (Node 4096 [2 ^ 32 - 2; 2 ^ 32 - 1] 5 NULL) 6160
     = Ok (4144, Node 4096 [2 ^ 32 - 4; 2 ^ 32 - 1] 5 NULL, 6160)) /\
  exists addr,
    in_chain addr 5 (Node 4096 [2 ^ 32 - 4; 2 ^ 32 - 1] 5 NULL) /\
    (4144 - pool_source ILP32 addr) mod 2 ^ 5 = 0 /\
    4144 mod 2 ^ 5 = pool_source ILP32 addr mod 2 ^ 5.
Proof.
  assert (H1 : 0 <= 5 <= 31) by lia.
  assert (H2 : chain_l2s_all 5 (Node 4096 [2 ^ 32 - 2; 2 ^ 32 - 1] 5 NULL))
    by (split; [reflexivity | exact I]).
  assert (H3 : pool_alloc bump_malloc ILP32 1
                 (Node 4096 [2 ^ 32 - 2; 2 ^ 32 - 1] 5 NULL) 6160
               = Ok (4144, Node 4096 [2 ^ 32 - 4; 2 ^ 32 - 1] 5 NULL, 6160))
    by (vm_compute; reflexivity).
  split; [split; [exact H1 | split; [exact H2 | exact H3]] |].
  exact (alloc_address_congruent_to_base Z bump_malloc ILP32 1 _ 6160 _ _ _ 5
           H1 H2 H3).
Defined.

(** C9, as stated, fails: the pool created for objects of 32 bytes in a
    block at address 4096 hands out 4120 under LP64 and 4112 under ILP32,
    neither of which is a multiple of 32. *)
Lemma alloc_alignment_counterexample :
  (pool_create bump_malloc LP64 32 4096
     = Ok (Node 4096 [2 ^ 64 - 1] 5 NULL, 6176) /\
   pool_alloc bump_malloc LP64 1 (Node 4096 [2 ^ 64 - 1] 5 NULL) 6176
     = Ok (4120, Node 4096 [2 ^ 64 - 2] 5 NULL, 6176) /\
   4120 mod 2 ^ 5 = 24) /\
  (pool_create bump_malloc ILP32 32 4096
     = Ok (Node 4096 [2 ^ 32 - 1; 2 ^ 32 - 1] 5 NULL, 6160) /\
   pool_alloc bump_malloc ILP32 1 (Node 4096 [2 ^ 32 - 1; 2 ^ 32 - 1] 5 NULL) 6160
     = Ok (4112, Node 4096 [2 ^ 32 - 2; 2 ^ 32 - 1] 5 NULL, 6160) /\
   4112 mod 2 ^ 5 = 16).
Proof. split; repeat split; vm_compute; reflexivity. Qed.

(** ** What the routing of the group operations does to a pool *)

Lemma ssg_subindex_range dm idx :
  0 <= _ssg_subindex dm idx < SSG_COUNT dm.
Proof.
  unfold _ssg_subindex.
  assert (Hc : 0 < SSG_COUNT dm <= 2) by (destruct dm; cbn; lia).
  pose proof (Z.mod_pos_bound (to_unsigned idx) (SSG_COUNT dm) (proj1 Hc)).
  rewrite to_unsigned_small by lia. assumption.
Qed.

Lemma SSG_COUNT_lt_SS_SIZE dm : 0 < SSG_COUNT dm < SS_SIZE dm.
Proof. destruct dm; cbn; lia. Qed.

Lemma ss_mark_other_bit dm x sub k :
  0 <= sub < SS_SIZE dm -> 0 <= k < SS_SIZE dm -> sub <> k ->
  Z.testbit (ss_mark dm x sub) k = Z.testbit x k.
Proof.
  intros Hs Hk Hne. unfold ss_mark. cbv zeta.
  rewrite ss_mask_pow2 by exact Hs.
  rewrite Z.land_spec. unfold to_ulong.
  rewrite Z.mod_pow2_bits_low by (unfold long_bits, SS_SIZE in *; lia).
  rewrite Z.lnot_spec, Z.pow2_bits_false by lia.
  apply andb_true_r.
Qed.

Lemma ss_unmark_other_bit dm x sub k :
  0 <= sub < SS_SIZE dm -> 0 <= k -> sub <> k ->
  Z.testbit (ss_unmark dm x sub) k = Z.testbit x k.
Proof.
  intros Hs Hk Hne. unfold ss_unmark. cbv zeta.
  rewrite ss_mask_pow2 by exact Hs.
  rewrite Z.lor_spec, Z.pow2_bits_false by lia.
  apply orb_false_r.
Qed.

Lemma list_set_length x n v : length (list_set x n v) = length x.
Proof.
  revert n. induction x as [| a t IH]; intros [| n]; cbn; try reflexivity.
  now rewrite IH.
Qed.

(** Bit [SSG_COUNT] of word 0 is set: the local index of every group
    operation is below [SSG_COUNT], so no operation ever clears it. *)
Lemma spare_bit_kept dm (x x' : ssg_t) b (f : ss_t -> ss_t) :
  (forall s, Z.testbit (f s) (SSG_COUNT dm) = Z.testbit s (SSG_COUNT dm)) ->
  spare_bit_set dm x ->
  (s <- ssg_get x b ;; ssg_set x b (f s)) = Ok x' ->
  spare_bit_set dm x'.
Proof.
  intros Hf [Hlen Hbit] H.
  bind_ok (ssg_get x b) as [s | | |] eqn:Eg in H.
  unfold ssg_set in H. destruct (_ && _); [| discriminate].
  inversion H; subst. split; [now rewrite list_set_length |].
  unfold ssg_get in Eg. destruct (b <? 0); [discriminate |].
  destruct x as [| w rest]; [destruct (Z.to_nat b); discriminate |].
  destruct (Z.to_nat b) as [| n]; cbn [nth_error list_set hd] in *.
  - inversion Eg; subst. now rewrite Hf.
  - exact Hbit.
Qed.

Lemma ssg_mark_spare_bit dm x pos x' :
  spare_bit_set dm x -> ssg_mark dm x pos = Ok x' -> spare_bit_set dm x'.
Proof.
  intros Hx H. unfold ssg_mark in H.
  revert H. apply spare_bit_kept; [| exact Hx].
  intros s. pose proof (ssg_subindex_range dm pos).
  pose proof (SSG_COUNT_lt_SS_SIZE dm).
  apply ss_mark_other_bit; lia.
Qed.

Lemma ssg_unmark_spare_bit dm x pos x' :
  spare_bit_set dm x -> ssg_unmark dm x pos = Ok x' -> spare_bit_set dm x'.
Proof.
  intros Hx H. unfold ssg_unmark in H.
  revert H. apply spare_bit_kept; [| exact Hx].
  intros s. pose proof (ssg_subindex_range dm pos).
  pose proof (SSG_COUNT_lt_SS_SIZE dm).
  apply ss_unmark_other_bit; lia.
Qed.

Lemma spare_bit_not_full dm x : spare_bit_set dm x -> ssg_is_full x = false.
Proof.
  intros [_ Hbit]. destruct x as [| w rest]; cbn [hd] in Hbit.
  - rewrite Z.bits_0 in Hbit. discriminate.
  - cbn [ssg_is_full forallb]. unfold SS_FULL.
    destruct (Z.eqb_spec w 0) as [-> | _]; [| reflexivity].
    rewrite Z.bits_0 in Hbit. discriminate.
Qed.

Lemma ssg_empty_spare_bit dm : spare_bit_set dm (ssg_empty dm).
Proof. destruct dm; split; reflexivity. Qed.

(** No chain a caller can observe ever has a full group or a successor: the
    slot at index [SSG_COUNT] of the head is never marked. *)
Lemma reachable_single_node (heap : Type) (malloc : Z -> heap -> Z * heap)
    dm pl :
  reachable malloc dm pl ->
  exists addr slots l,
    pl = Node addr slots l NULL /\ spare_bit_set dm slots /\
    ssg_is_full slots = false.
Proof.
  induction 1 as [n extra want h pl edata h' Hc
                 | fuel pl h loc pl' h' _ (addr & slots & l & -> & Hs & Hnf) Ha
                 | pl ptr pl' _ (addr & slots & l & -> & Hs & Hnf) Hf].
  - destruct (pool_create_extra_inv malloc dm _ _ _ _ _ _ _ Hc)
      as (buf & l & -> & _ & _).
    exists buf, (ssg_empty dm), l.
    split; [reflexivity | split; [apply ssg_empty_spare_bit |]].
    apply ssg_empty_not_full.
  - destruct fuel as [| fuel]; [discriminate |].
    rewrite pool_alloc_not_full in Ha by exact Hnf.
    bind_ok (ssg_find dm slots) as [pos | | |] in Ha.
    bind_ok (ssg_mark dm slots pos) as [slots' | | |] eqn:Em in Ha.
    inversion Ha; subst.
    pose proof (ssg_mark_spare_bit dm slots pos slots' Hs Em) as Hs'.
    exists addr, slots', l.
    split; [reflexivity | split; [exact Hs' | now apply spare_bit_not_full with dm]].
  - cbn [pool_free] in Hf.
    destruct (ptr =? 0).
    { inversion Hf; subst. exists addr, slots, l. repeat split; assumption || apply Hs. }
    destruct (_ && _); [| discriminate].
    destruct (ssg_test dm slots _) as [t | | |]; cbn [bind] in Hf;
      try discriminate.
    destruct t; cbn [assert bind] in Hf; try discriminate.
    destruct (ssg_unmark dm slots _) as [slots' | | |] eqn:Eu;
      cbn [bind] in Hf; try discriminate.
    inversion Hf; subst.
    pose proof (ssg_unmark_spare_bit dm slots _ slots' Hs Eu) as Hs'.
    exists addr, slots', l.
    split; [reflexivity | split; [exact Hs' | now apply spare_bit_not_full with dm]].
Qed.

(** ** Termination of the allocation *)

Lemma pool_create_inv (heap : Type) (malloc : Z -> heap -> Z * heap)
    dm n h s h1 :
  pool_create malloc dm n h = Ok (s, h1) ->
  exists buf l, s = Node buf (ssg_empty dm) l NULL.
Proof.
  unfold pool_create.
  destruct (pool_create_extra malloc dm n 0 false h) as [[[pl e] h2] | | |] eqn:E;
    cbn [bind]; try discriminate.
  intros H. inversion H; subst.
  destruct (pool_create_extra_inv malloc dm _ _ _ _ _ _ _ E) as (buf & l & -> & _).
  now exists buf, l.
Qed.

Lemma ssg_find_not_out_of_fuel dm (x : ssg_t) : ssg_find dm x <> OutOfFuel.
Proof.
  unfold ssg_find. generalize 0 as pos.
  induction x as [| s rest IH]; intros pos; cbn [ssg_find_from];
    [discriminate |].
  destruct (negb (s =? SS_FULL)); [| apply IH].
  unfold ss_find, builtin_ctz. destruct (to_unsigned s); cbn [bind]; discriminate.
Qed.

Lemma ssg_mark_not_out_of_fuel dm (x : ssg_t) idx : ssg_mark dm x idx <> OutOfFuel.
Proof.
  unfold ssg_mark, ssg_get, ssg_set.
  destruct (_ <? 0); cbn [bind]; [discriminate |].
  destruct (nth_error x _); cbn [bind]; [| discriminate].
  destruct (_ && _); discriminate.
Qed.

Lemma pool_create_not_out_of_fuel (heap : Type) (malloc : Z -> heap -> Z * heap)
    dm n h :
  pool_create malloc dm n h <> OutOfFuel.
Proof.
  unfold pool_create, pool_create_extra.
  destruct (negb (n =? 0)); cbn [assert bind]; [| discriminate].
  destruct (malloc _ h) as [buf h1].
  destruct (negb (buf =? 0)); cbn [assert bind]; [| discriminate].
  unfold builtin_ctz. destruct (to_unsigned (npot n)); cbn [bind]; discriminate.
Qed.

(** X16: the recursion of [pool_alloc] ends within the length of the chain plus
    the one node it may create. *)
Lemma pool_alloc_fuel_enough (heap : Type) (malloc : Z -> heap -> Z * heap) dm :
  forall pl h fuel,
    (chain_length pl + 1 < fuel)%nat ->
    pool_alloc malloc dm fuel pl h <> OutOfFuel.
Proof.
  induction pl as [| addr slots l successor IH]; intros h fuel Hfuel;
    (destruct fuel as [| fuel]; [cbn in Hfuel; lia |]).
  - discriminate.
  - cbn [chain_length] in Hfuel. cbn [pool_alloc].
    destruct (ssg_is_full slots).
    + destruct successor as [| a2 sl2 l2 s2].
      * pose proof (pool_create_not_out_of_fuel _ malloc dm
                      (to_unsigned (Z.shiftl 1 l)) h) as Hc.
        destruct (pool_create malloc dm _ h) as [[s h1] | | |] eqn:Ec;
          cbn [bind]; try discriminate; [| contradiction].
        destruct (pool_create_inv _ malloc dm _ _ _ _ Ec) as (buf & l' & ->).
        destruct fuel as [| fuel]; [cbn in Hfuel; lia |].
        rewrite pool_alloc_not_full by apply ssg_empty_not_full.
        rewrite ssg_empty_find. cbn [bind].
        rewrite ssg_empty_mark. cbn [bind]. discriminate.
      * cbn [bind].
        specialize (IH h fuel ltac:(cbn [chain_length] in *; lia)).
        destruct (pool_alloc malloc dm fuel (Node a2 sl2 l2 s2) h)
          as [[[loc s''] h2] | | |]; cbn [bind]; try discriminate.
        contradiction.
    + pose proof (ssg_find_not_out_of_fuel dm slots) as Hfind.
      destruct (ssg_find dm slots) as [pos | | |]; cbn [bind];
        try discriminate; [| contradiction].
      pose proof (ssg_mark_not_out_of_fuel dm slots pos) as Hmark.
      destruct (ssg_mark dm slots pos) as [slots' | | |]; cbn [bind];
        try discriminate. contradiction.
Qed.

(** The bit the group operations do address, for the indices that stay
    inside the array: word [idx / SSG_COUNT], local bit [idx mod SSG_COUNT]. *)
Lemma ssg_test_actual_bit dm (x : ssg_t) idx :
  Z.of_nat (length x) = SSG_COUNT dm ->
  0 <= idx < SSG_COUNT dm * SSG_COUNT dm ->
  ssg_test dm x idx
  = Ok (negb (group_bit dm x
                (idx / SSG_COUNT dm * SS_SIZE dm + idx mod SSG_COUNT dm))).
Proof.
  intros Hlen Hi.
  pose proof (SSG_COUNT_lt_SS_SIZE dm) as Hc.
  assert (Hc2 : SSG_COUNT dm <= 2) by (destruct dm; cbn; lia).
  assert (Hq : 0 <= idx / SSG_COUNT dm < SSG_COUNT dm).
  { split; [apply Z.div_pos; lia | apply Z.div_lt_upper_bound; lia]. }
  assert (Hr : 0 <= idx mod SSG_COUNT dm < SSG_COUNT dm)
    by (apply Z.mod_pos_bound; lia).
  unfold ssg_test, _ssg_bucket, _ssg_subindex.
  rewrite (to_unsigned_small idx) by nia.
  rewrite !to_unsigned_small by lia.
  unfold ssg_get. destruct (Z.ltb_spec (idx / SSG_COUNT dm) 0); [lia |].
  destruct (nth_error x (Z.to_nat (idx / SSG_COUNT dm))) as [s |] eqn:E.
  - cbn [bind]. rewrite ss_test_negb_bit by lia.
    unfold group_bit, ss_slot_free.
    set (q := idx / SSG_COUNT dm) in *. set (r := idx mod SSG_COUNT dm) in *.
    replace ((q * SS_SIZE dm + r) / SS_SIZE dm) with q
      by (apply Z.div_unique with r; lia).
    replace ((q * SS_SIZE dm + r) mod SS_SIZE dm) with r
      by (apply Z.mod_unique with q; lia).
    now rewrite (nth_error_nth x _ 0 E).
  - apply nth_error_None in E. lia.
Qed.

(** * Further properties of the code *)

(** ** Slot sets: marking and unmarking *)

Lemma testbit_above_width x w k :
  0 <= x < 2 ^ w -> 0 <= w <= k -> Z.testbit x k = false.
Proof.
  intros Hx Hk. rewrite <- (Z.mod_small x (2 ^ w)) by exact Hx.
  apply Z.mod_pow2_bits_high. lia.
Qed.

Lemma below_width_of_bits y w :
  0 <= y -> 0 <= w -> (forall k, w <= k -> Z.testbit y k = false) -> y < 2 ^ w.
Proof.
  intros Hy Hw Hbits.
  destruct (Z.eq_dec y 0) as [-> | Hne]; [apply Z.pow_pos_nonneg; lia |].
  destruct (Z_lt_le_dec y (2 ^ w)) as [Hlt | Hge]; [exact Hlt | exfalso].
  assert (Hlog : w <= Z.log2 y) by (apply Z.log2_le_pow2; lia).
  pose proof (Z.bit_log2 y ltac:(lia)) as Hb.
  rewrite (Hbits _ Hlog) in Hb. discriminate.
Qed.

Lemma long_bits_pos dm : 0 < long_bits dm.
Proof. destruct dm; cbn; lia. Qed.

Lemma ss_mark_bit dm x idx k :
  0 <= x < 2 ^ long_bits dm -> 0 <= idx < SS_SIZE dm -> 0 <= k ->
  Z.testbit (ss_mark dm x idx) k = Z.testbit x k && negb (k =? idx).
Proof.
  intros Hx Hi Hk. unfold ss_mark. cbv zeta.
  rewrite ss_mask_pow2 by exact Hi.
  rewrite Z.land_spec. unfold to_ulong.
  pose proof (long_bits_pos dm) as Hw.
  destruct (Z_lt_le_dec k (long_bits dm)) as [Hlt | Hge].
  - rewrite Z.mod_pow2_bits_low by lia.
    rewrite Z.lnot_spec, Z.pow2_bits_eqb by lia.
    now rewrite (Z.eqb_sym idx k).
  - rewrite Z.mod_pow2_bits_high by lia.
    rewrite (testbit_above_width x (long_bits dm) k) by lia. reflexivity.
Qed.

Lemma ss_unmark_bit dm x idx k :
  0 <= idx < SS_SIZE dm -> 0 <= k ->
  Z.testbit (ss_unmark dm x idx) k = Z.testbit x k || (k =? idx).
Proof.
  intros Hi Hk. unfold ss_unmark. cbv zeta.
  rewrite ss_mask_pow2 by exact Hi.
  rewrite Z.lor_spec, Z.pow2_bits_eqb by lia.
  now rewrite (Z.eqb_sym idx k).
Qed.

Lemma ss_mark_range dm x idx :
  0 <= x < 2 ^ long_bits dm -> 0 <= idx < SS_SIZE dm ->
  0 <= ss_mark dm x idx < 2 ^ long_bits dm.
Proof.
  intros Hx Hi. pose proof (long_bits_pos dm) as Hw.
  assert (H0 : 0 <= ss_mark dm x idx).
  { unfold ss_mark. cbv zeta. apply Z.land_nonneg. left. lia. }
  split; [exact H0 |].
  apply below_width_of_bits; [exact H0 | lia |].
  intros k Hk. rewrite ss_mark_bit by lia.
  rewrite (testbit_above_width x (long_bits dm) k) by lia. reflexivity.
Qed.

Lemma ss_unmark_range dm x idx :
  0 <= x < 2 ^ long_bits dm -> 0 <= idx < SS_SIZE dm ->
  0 <= ss_unmark dm x idx < 2 ^ long_bits dm.
Proof.
  intros Hx Hi. pose proof (long_bits_pos dm) as Hw.
  assert (H0 : 0 <= ss_unmark dm x idx).
  { unfold ss_unmark. cbv zeta. apply Z.lor_nonneg. split; [lia |].
    unfold to_ulong. apply Z.mod_pos_bound. apply Z.pow_pos_nonneg; lia. }
  split; [exact H0 |].
  apply below_width_of_bits; [exact H0 | lia |].
  intros k Hk. rewrite ss_unmark_bit by lia.
  rewrite (testbit_above_width x (long_bits dm) k) by lia.
  unfold SS_SIZE, long_bits in *.
  destruct (Z.eqb_spec k idx); [lia | reflexivity].
Qed.

(** X1: marking a slot clears exactly its bit and unmarking sets exactly its
    bit; every other bit of the set is kept, and the result still fits the
    width of [ss_t]. *)
Theorem ss_mark_unmark_touch_one_bit dm (x : ss_t) idx :
  0 <= x < 2 ^ long_bits dm ->
  0 <= idx < SS_SIZE dm ->
  (forall k, 0 <= k ->
     ss_slot_free (ss_mark dm x idx) k = ss_slot_free x k && negb (k =? idx)) /\
  (forall k, 0 <= k ->
     ss_slot_free (ss_unmark dm x idx) k = ss_slot_free x k || (k =? idx)) /\
  0 <= ss_mark dm x idx < 2 ^ long_bits dm /\
  0 <= ss_unmark dm x idx < 2 ^ long_bits dm.
Proof.
  intros Hx Hi. unfold ss_slot_free. repeat split.
  - intros k Hk. now apply ss_mark_bit.
  - intros k Hk. now apply ss_unmark_bit.
  - apply ss_mark_range; assumption.
  - apply ss_mark_range; assumption.
  - apply ss_unmark_range; assumption.
  - apply ss_unmark_range; assumption.
Qed.

Lemma ss_mark_unmark_touch_one_bit_witness :
  (0 <= 13 < 2 ^ long_bits ILP32 /\ 0 <= 2 < SS_SIZE ILP32) /\
  (forall k, 0 <= k ->
     ss_slot_free (ss_mark ILP32 13 2) k = ss_slot_free 13 k && negb (k =? 2)) /\
  (forall k, 0 <= k ->
     ss_slot_free (ss_unmark ILP32 13 2) k = ss_slot_free 13 k || (k =? 2)) /\
  0 <= ss_mark ILP32 13 2 < 2 ^ long_bits ILP32 /\
  0 <= ss_unmark ILP32 13 2 < 2 ^ long_bits ILP32.
Proof.
  assert (H1 : 0 <= 13 < 2 ^ long_bits ILP32) by (cbn; lia).
  assert (H2 : 0 <= 2 < SS_SIZE ILP32) by (cbn; lia).
  split; [split; assumption |].
  exact (ss_mark_unmark_touch_one_bit ILP32 13 2 H1 H2).
Defined.

(** X2: on a free slot, marking and then unmarking gives the set back, and
    [ss_test] sees each step: true after the mark, false after the unmark. *)
Theorem ss_mark_then_unmark_restores dm (x : ss_t) idx :
  0 <= x < 2 ^ long_bits dm ->
  0 <= idx < SS_SIZE dm ->
  ss_slot_free x idx = true ->
  ss_test dm x idx = false /\
  ss_test dm (ss_mark dm x idx) idx = true /\
  ss_unmark dm (ss_mark dm x idx) idx = x /\
  ss_test dm (ss_unmark dm (ss_mark dm x idx) idx) idx = false /\
  ss_mark dm (ss_mark dm x idx) idx = ss_mark dm x idx.
Proof.
  intros Hx Hi Hfree. unfold ss_slot_free in Hfree.
  pose proof (ss_mark_range dm x idx Hx Hi) as Hm.
  assert (Hback : ss_unmark dm (ss_mark dm x idx) idx = x).
  { apply Z.bits_inj'. intros k Hk.
    rewrite ss_unmark_bit, ss_mark_bit by lia.
    destruct (Z.eqb_spec k idx) as [-> | _]; cbn [negb].
    - rewrite Hfree. reflexivity.
    - now rewrite andb_true_r, orb_false_r. }
  repeat split.
  - rewrite ss_test_negb_bit by exact Hi. now rewrite Hfree.
  - rewrite ss_test_negb_bit, ss_mark_bit by lia.
    rewrite Z.eqb_refl. cbn [negb]. now rewrite andb_false_r.
  - exact Hback.
  - rewrite Hback, ss_test_negb_bit by exact Hi. now rewrite Hfree.
  - apply Z.bits_inj'. intros k Hk. rewrite !ss_mark_bit by lia.
    now rewrite <- andb_assoc, andb_diag.
Qed.

Lemma ss_mark_then_unmark_restores_witness :
  (0 <= 13 < 2 ^ long_bits LP64 /\ 0 <= 3 < SS_SIZE LP64 /\
   ss_slot_free 13 3 = true) /\
  ss_test LP64 13 3 = false /\
  ss_test LP64 (ss_mark LP64 13 3) 3 = true /\
  ss_unmark LP64 (ss_mark LP64 13 3) 3 = 13 /\
  ss_test LP64 (ss_unmark LP64 (ss_mark LP64 13 3) 3) 3 = false /\
  ss_mark LP64 (ss_mark LP64 13 3) 3 = ss_mark LP64 13 3.
Proof.
  assert (H1 : 0 <= 13 < 2 ^ long_bits LP64) by (cbn; lia).
  assert (H2 : 0 <= 3 < SS_SIZE LP64) by (cbn; lia).
  assert (H3 : ss_slot_free 13 3 = true) by reflexivity.
  split; [split; [exact H1 | split; [exact H2 | exact H3]] |].
  exact (ss_mark_then_unmark_restores LP64 13 3 H1 H2 H3).
Defined.

(** ** Slot groups *)

Lemma full_words_zero (x : ssg_t) :
  ssg_is_full x = true -> forall n, nth n x 0 = 0.
Proof.
  induction x as [| w rest IH]; intros Hf n; [destruct n; reflexivity |].
  cbn [ssg_is_full forallb] in Hf. apply andb_true_iff in Hf.
  destruct Hf as [Hw Hrest]. apply Z.eqb_eq in Hw. unfold SS_FULL in Hw.
  destruct n as [| n]; [exact Hw | now apply IH].
Qed.

Lemma zero_words_full (x : ssg_t) :
  (forall n, (n < length x)%nat -> nth n x 0 = 0) -> ssg_is_full x = true.
Proof.
  intros H. apply forallb_forall. intros w Hin.
  destruct (In_nth x w 0 Hin) as [n [Hn Hw]].
  rewrite <- Hw, (H n Hn). reflexivity.
Qed.

Lemma group_bit_word dm (x : ssg_t) n k :
  0 <= k < SS_SIZE dm ->
  group_bit dm x (Z.of_nat n * SS_SIZE dm + k) = Z.testbit (nth n x 0) k.
Proof.
  intros Hk. unfold group_bit, ss_slot_free.
  replace ((Z.of_nat n * SS_SIZE dm + k) / SS_SIZE dm) with (Z.of_nat n)
    by (apply Z.div_unique with k; lia).
  replace ((Z.of_nat n * SS_SIZE dm + k) mod SS_SIZE dm) with k
    by (apply Z.mod_unique with (Z.of_nat n); lia).
  now rewrite Nat2Z.id.
Qed.

(** X3: a well-formed group is full exactly when none of its 64 slots, in
    the numbering of [ssg_find], is free. *)
Theorem ssg_is_full_iff_no_free_slot dm (x : ssg_t) :
  ssg_wf dm x ->
  (ssg_is_full x = true <->
   forall i, 0 <= i < SSG_SIZE dm -> group_bit dm x i = false).
Proof.
  intros [Hlen Hwf]. split.
  - intros Hf i Hi. unfold group_bit, ss_slot_free.
    rewrite (full_words_zero x Hf). apply Z.bits_0.
  - intros Hbits. apply zero_words_full. intros n Hn.
    assert (Hss : 0 < SS_SIZE dm) by (destruct dm; cbn; lia).
    assert (Hr : 0 <= nth n x 0 < 2 ^ long_bits dm).
    { rewrite Forall_forall in Hwf. apply Hwf. now apply nth_In. }
    apply Z.bits_inj'. intros k Hk. rewrite Z.bits_0.
    destruct (Z_lt_le_dec k (SS_SIZE dm)) as [Hlt | Hge].
    + rewrite <- (group_bit_word dm x n k) by lia.
      apply Hbits. unfold SSG_SIZE. nia.
    + apply (testbit_above_width _ (long_bits dm)); [exact Hr |].
      unfold SS_SIZE, long_bits in *. lia.
Qed.

Lemma ssg_is_full_iff_no_free_slot_witness :
  ssg_wf ILP32 [0; 0] /\
  (ssg_is_full [0; 0] = true <->
   forall i, 0 <= i < SSG_SIZE ILP32 -> group_bit ILP32 [0; 0] i = false).
Proof.
  assert (H : ssg_wf ILP32 [0; 0]).
  { split; [reflexivity |]. repeat constructor; cbn; lia. }
  split; [exact H |].
  exact (ssg_is_full_iff_no_free_slot ILP32 [0; 0] H).
Defined.

Lemma ssg_find_from_full dm (x : ssg_t) :
  ssg_is_full x = true -> forall pos, ssg_find_from dm x pos = Ok 0.
Proof.
  induction x as [| w rest IH]; intros Hf pos; [reflexivity |].
  cbn [ssg_is_full forallb] in Hf. apply andb_true_iff in Hf.
  destruct Hf as [Hw Hrest]. cbn [ssg_find_from]. rewrite Hw. cbn [negb].
  now apply IH.
Qed.

(** X4: called on a full group, against its precondition, [ssg_find] falls
    through its loop and returns 0, the same value it returns when slot 0
    is free. *)
Theorem ssg_find_full_returns_zero dm (x : ssg_t) :
  ssg_is_full x = true -> ssg_find dm x = Ok 0.
Proof. intros Hf. unfold ssg_find. now apply ssg_find_from_full. Qed.

Lemma ssg_find_full_returns_zero_witness :
  ssg_is_full [0; 0] = true /\
  ssg_find ILP32 [0; 0] = Ok 0 /\ ssg_find ILP32 (ssg_empty ILP32) = Ok 0.
Proof.
  assert (H : ssg_is_full [0; 0] = true) by reflexivity.
  split; [exact H |].
  split; [exact (ssg_find_full_returns_zero ILP32 [0; 0] H) | reflexivity].
Defined.

(** X5 is [ssg_find_lowest_free] above: at a concrete group. *)
Lemma ssg_find_lowest_free_witness :
  (ssg_wf ILP32 [0; 2 ^ 5 + 2 ^ 9] /\
   ssg_is_full [0; 2 ^ 5 + 2 ^ 9] = false /\
   Forall (fun s => s <> 0 -> to_unsigned s <> 0) [0; 2 ^ 5 + 2 ^ 9]) /\
  exists i, ssg_find ILP32 [0; 2 ^ 5 + 2 ^ 9] = Ok i /\ 0 <= i < 64 /\
            group_bit ILP32 [0; 2 ^ 5 + 2 ^ 9] i = true /\
            forall j, 0 <= j < i -> group_bit ILP32 [0; 2 ^ 5 + 2 ^ 9] j = false.
Proof.
  assert (H1 : ssg_wf ILP32 [0; 2 ^ 5 + 2 ^ 9]).
  { split; [reflexivity |]. repeat constructor; cbn; lia. }
  assert (H2 : ssg_is_full [0; 2 ^ 5 + 2 ^ 9] = false) by reflexivity.
  assert (H3 : Forall (fun s => s <> 0 -> to_unsigned s <> 0) [0; 2 ^ 5 + 2 ^ 9]).
  { apply Forall_cons; [intros H; exfalso; now apply H |].
    apply Forall_cons; [intros _; vm_compute; discriminate | apply Forall_nil]. }
  split; [split; [exact H1 | split; [exact H2 | exact H3]] |].
  exact (ssg_find_lowest_free ILP32 [0; 2 ^ 5 + 2 ^ 9] H1 H2 H3).
Defined.

(** X7 is [ssg_bucket_out_of_bounds] above: at a concrete group. *)
Lemma ssg_bucket_out_of_bounds_witness :
  (Z.of_nat (length (ssg_empty ILP32)) = SSG_COUNT ILP32 /\
   SSG_COUNT ILP32 * SSG_COUNT ILP32 <= 5 < 2 ^ 32) /\
  ssg_test ILP32 (ssg_empty ILP32) 5 = Undefined /\
  ssg_mark ILP32 (ssg_empty ILP32) 5 = Undefined /\
  ssg_unmark ILP32 (ssg_empty ILP32) 5 = Undefined.
Proof.
  assert (H1 : Z.of_nat (length (ssg_empty ILP32)) = SSG_COUNT ILP32)
    by reflexivity.
  assert (H2 : SSG_COUNT ILP32 * SSG_COUNT ILP32 <= 5 < 2 ^ 32) by (cbn; lia).
  split; [split; assumption |].
  exact (ssg_bucket_out_of_bounds ILP32 (ssg_empty ILP32) 5 H1 H2).
Defined.

Lemma ss_mark_bit_low dm x idx k :
  0 <= idx < SS_SIZE dm -> 0 <= k < SS_SIZE dm ->
  Z.testbit (ss_mark dm x idx) k = Z.testbit x k && negb (k =? idx).
Proof.
  intros Hi Hk. unfold ss_mark. cbv zeta.
  rewrite ss_mask_pow2 by exact Hi.
  rewrite Z.land_spec. unfold to_ulong.
  rewrite Z.mod_pow2_bits_low by (unfold SS_SIZE, long_bits in *; lia).
  rewrite Z.lnot_spec, Z.pow2_bits_eqb by lia.
  now rewrite (Z.eqb_sym idx k).
Qed.

Lemma nth_list_set_same (x : list ss_t) n v :
  (n < length x)%nat -> nth n (list_set x n v) 0 = v.
Proof.
  revert n. induction x as [| a t IH]; intros [| n] Hn; cbn in *;
    try lia.
  apply IH. lia.
Qed.

Lemma nth_list_set_other (x : list ss_t) n m v :
  m <> n -> nth m (list_set x n v) 0 = nth m x 0.
Proof.
  revert n m. induction x as [| a t IH]; intros [| n] [| m] Hne; cbn;
    try reflexivity; try congruence.
  apply IH. congruence.
Qed.

Lemma ssg_get_in (x : ssg_t) b :
  0 <= b < Z.of_nat (length x) -> ssg_get x b = Ok (nth (Z.to_nat b) x 0).
Proof.
  intros Hb. unfold ssg_get.
  destruct (Z.ltb_spec b 0); [lia |].
  destruct (nth_error x (Z.to_nat b)) as [v |] eqn:E.
  - now rewrite (nth_error_nth x _ 0 E).
  - apply nth_error_None in E. lia.
Qed.

Lemma ssg_set_in (x : ssg_t) b v :
  0 <= b < Z.of_nat (length x) -> ssg_set x b v = Ok (list_set x (Z.to_nat b) v).
Proof.
  intros Hb. unfold ssg_set.
  destruct (Z.leb_spec 0 b); [| lia].
  destruct (Z.ltb_spec b (Z.of_nat (length x))); [reflexivity | lia].
Qed.

Lemma ssg_bucket_in_bounds dm idx :
  0 <= idx < SSG_COUNT dm * SSG_COUNT dm ->
  _ssg_bucket dm idx = idx / SSG_COUNT dm /\
  _ssg_subindex dm idx = idx mod SSG_COUNT dm /\
  0 <= idx / SSG_COUNT dm < SSG_COUNT dm /\
  0 <= idx mod SSG_COUNT dm < SSG_COUNT dm.
Proof.
  intros Hi.
  assert (Hc : 0 < SSG_COUNT dm <= 2) by (destruct dm; cbn; lia).
  assert (Hq : 0 <= idx / SSG_COUNT dm < SSG_COUNT dm).
  { split; [apply Z.div_pos; lia | apply Z.div_lt_upper_bound; lia]. }
  assert (Hr : 0 <= idx mod SSG_COUNT dm < SSG_COUNT dm)
    by (apply Z.mod_pos_bound; lia).
  unfold _ssg_bucket, _ssg_subindex.
  rewrite (to_unsigned_small idx) by nia.
  rewrite !to_unsigned_small by lia.
  repeat split; lia.
Qed.

(** The word and the local bit of slot [j] in the numbering of [ssg_find]. *)
Lemma group_bit_after_set dm (x : ssg_t) q r j (f : ss_t -> ss_t) (b : bool) :
  0 <= q < Z.of_nat (length x) -> 0 <= r < SS_SIZE dm -> 0 <= j ->
  (forall w k, 0 <= k < SS_SIZE dm ->
     Z.testbit (f w) k = if k =? r then b else Z.testbit w k) ->
  group_bit dm (list_set x (Z.to_nat q) (f (nth (Z.to_nat q) x 0))) j
  = if j =? q * SS_SIZE dm + r then b else group_bit dm x j.
Proof.
  intros Hq Hr Hj Hf.
  assert (Hss : 0 < SS_SIZE dm) by lia.
  unfold group_bit, ss_slot_free.
  pose proof (Z.mod_pos_bound j (SS_SIZE dm) Hss) as Hk.
  pose proof (Z.div_pos j (SS_SIZE dm) Hj Hss) as Hw.
  pose proof (Z.div_mod j (SS_SIZE dm) ltac:(lia)) as Hdm.
  destruct (Z.eq_dec (j / SS_SIZE dm) q) as [Heq | Hne].
  - rewrite Heq, nth_list_set_same by lia.
    rewrite Hf by exact Hk.
    replace (j =? q * SS_SIZE dm + r) with (j mod SS_SIZE dm =? r);
      [reflexivity |].
    destruct (Z.eqb_spec (j mod SS_SIZE dm) r), (Z.eqb_spec j (q * SS_SIZE dm + r));
      try reflexivity; exfalso; nia.
  - rewrite nth_list_set_other by lia.
    destruct (Z.eqb_spec j (q * SS_SIZE dm + r)) as [Hjb | _]; [| reflexivity].
    exfalso. apply Hne. subst j.
    symmetry. apply Z.div_unique with r; lia.
Qed.

(** X6: for an index below [SSG_COUNT * SSG_COUNT] the three group
    operations stay inside the array and address one bit of the group,
    bit [(idx / SSG_COUNT) * SS_SIZE + idx mod SSG_COUNT] in the numbering
    of [ssg_find]: [ssg_test] reads it, [ssg_mark] clears it, [ssg_unmark]
    sets it, and no other bit changes.  That bit is bit [idx] when
    [idx < SSG_COUNT]. *)
Theorem ssg_ops_address_one_bit dm (x : ssg_t) idx :
  Z.of_nat (length x) = SSG_COUNT dm ->
  0 <= idx < SSG_COUNT dm * SSG_COUNT dm ->
  ssg_addressed_bit dm idx
    = idx / SSG_COUNT dm * SS_SIZE dm + idx mod SSG_COUNT dm /\
  (idx < SSG_COUNT dm -> ssg_addressed_bit dm idx = idx) /\
  ssg_test dm x idx = Ok (negb (group_bit dm x (ssg_addressed_bit dm idx))) /\
  exists xm xu,
    ssg_mark dm x idx = Ok xm /\
    ssg_unmark dm x idx = Ok xu /\
    forall j, 0 <= j ->
      group_bit dm xm j
        = (if j =? ssg_addressed_bit dm idx then false else group_bit dm x j) /\
      group_bit dm xu j
        = (if j =? ssg_addressed_bit dm idx then true else group_bit dm x j).
Proof.
  intros Hlen Hi.
  destruct (ssg_bucket_in_bounds dm idx Hi) as (Hb & Hs & Hq & Hr).
  pose proof (SSG_COUNT_lt_SS_SIZE dm) as Hc.
  assert (Hab : ssg_addressed_bit dm idx
                = idx / SSG_COUNT dm * SS_SIZE dm + idx mod SSG_COUNT dm).
  { unfold ssg_addressed_bit. now rewrite Hb, Hs. }
  split; [exact Hab |]. split.
  { intros Hlt. rewrite Hab, Z.div_small, Z.mod_small by lia. lia. }
  split.
  { rewrite Hab. apply ssg_test_actual_bit; assumption. }
  unfold ssg_mark, ssg_unmark. rewrite Hb, Hs.
  rewrite ssg_get_in by lia. cbn [bind]. rewrite !ssg_set_in by lia.
  eexists. eexists. split; [reflexivity |]. split; [reflexivity |].
  intros j Hj. rewrite Hab. split.
  - apply (group_bit_after_set dm x _ _ j
             (fun w => ss_mark dm w (idx mod SSG_COUNT dm)) false); try lia.
    intros w k Hk. rewrite ss_mark_bit_low by lia.
    destruct (k =? idx mod SSG_COUNT dm); cbn [negb];
      [apply andb_false_r | apply andb_true_r].
  - apply (group_bit_after_set dm x _ _ j
             (fun w => ss_unmark dm w (idx mod SSG_COUNT dm)) true); try lia.
    intros w k Hk. rewrite ss_unmark_bit by lia.
    destruct (k =? idx mod SSG_COUNT dm);
      [apply orb_true_r | apply orb_false_r].
Qed.

Lemma ssg_ops_address_one_bit_witness :
  (Z.of_nat (length (ssg_empty ILP32)) = SSG_COUNT ILP32 /\
   0 <= 3 < SSG_COUNT ILP32 * SSG_COUNT ILP32) /\
  ssg_addressed_bit ILP32 3 = 33 /\
  ssg_test ILP32 (ssg_empty ILP32) 3
    = Ok (negb (group_bit ILP32 (ssg_empty ILP32) (ssg_addressed_bit ILP32 3))) /\
  ssg_mark ILP32 (ssg_empty ILP32) 3 = Ok [2 ^ 32 - 1; 2 ^ 32 - 3].
Proof.
  assert (H1 : Z.of_nat (length (ssg_empty ILP32)) = SSG_COUNT ILP32)
    by reflexivity.
  assert (H2 : 0 <= 3 < SSG_COUNT ILP32 * SSG_COUNT ILP32) by (cbn; lia).
  split; [split; assumption |].
  destruct (ssg_ops_address_one_bit ILP32 (ssg_empty ILP32) 3 H1 H2)
    as (Hab & _ & Ht & _).
  split; [rewrite Hab; reflexivity |].
  split; [exact Ht | reflexivity].
Defined.

(** ** Rounding: bounds *)

(** X19: within its range the rounding never doubles the request, rounding
    twice is rounding once, and a larger request never gets a smaller slot. *)
Theorem npot_bounds n m :
  1 <= n <= m -> m <= 2 ^ 31 ->
  n <= npot n < 2 * n /\
  npot (npot n) = npot n /\
  npot n <= npot m.
Proof.
  intros Hn Hm.
  destruct (npot_pow2_exponent n ltac:(lia)) as (l & Hl & Hp & (k & Hk & Hpk & Hge & Hmin)).
  destruct (npot_pow2_exponent m ltac:(lia)) as (l' & Hl' & Hp' & (k' & Hk' & Hpk' & Hge' & _)).
  repeat split.
  - rewrite Hp. exact Hge.
  - destruct (Z.eq_dec n 1) as [-> | Hne]; [vm_compute; reflexivity |].
    rewrite npot_log2 by lia.
    pose proof (Z.log2_spec (n - 1) ltac:(lia)) as [Hlo Hhi].
    pose proof (Z.log2_nonneg (n - 1)) as Hnn.
    assert (Hlt : Z.log2 (n - 1) < 31).
    { apply (Z.pow_lt_mono_r_iff 2); lia. }
    assert (Hb : 2 ^ (Z.log2 (n - 1) + 1) <= 2 ^ 31)
      by (apply Z.pow_le_mono_r; lia).
    assert (Hpos : 0 < 2 ^ (Z.log2 (n - 1) + 1))
      by (apply Z.pow_pos_nonneg; lia).
    rewrite to_unsigned_small by lia.
    rewrite Z.pow_add_r by lia. lia.
  - rewrite Hp. now apply npot_pow2.
  - rewrite Hp. rewrite Hp'. rewrite Hpk'.
    apply Hmin; [exact Hk' |]. lia.
Qed.

Lemma npot_bounds_witness :
  (1 <= 24 <= 33 /\ 33 <= 2 ^ 31) /\
  24 <= npot 24 < 2 * 24 /\ npot (npot 24) = npot 24 /\ npot 24 <= npot 33.
Proof.
  assert (H1 : 1 <= 24 <= 33) by lia.
  assert (H2 : 33 <= 2 ^ 31) by lia.
  split; [split; assumption |].
  exact (npot_bounds 24 33 H1 H2).
Defined.

(** ** Destruction *)

(** X8: [pool_destroy] passes the address of every node of the chain to
    [free], once each and head first, and hands nothing else to it; a null
    handle releases nothing. *)
Theorem pool_destroy_releases_each_node
    (heap : Type) (free : Z -> heap -> heap) (pl : pool_ptr) (h : heap) :
  pool_destroy free pl h = fold_left (fun h' addr => free addr h') (chain_addrs pl) h /\
  pool_destroy log_free pl [] = chain_addrs pl /\
  length (chain_addrs pl) = chain_length pl /\
  pool_destroy free NULL h = h.
Proof.
  assert (Hgen : forall (H : Type) (f : Z -> H -> H) p h0,
            pool_destroy f p h0 = fold_left (fun h' addr => f addr h') (chain_addrs p) h0).
  { intros H f p. induction p as [| addr slots l successor IH]; intros h0;
      [reflexivity |].
    cbn [pool_destroy chain_addrs fold_left]. apply IH. }
  split; [apply Hgen |]. split; [| split; [| reflexivity]].
  - rewrite Hgen.
    assert (Hlog : forall l acc,
              fold_left (fun h' addr => log_free addr h') l acc = acc ++ l).
    { induction l as [| a l IH]; intros acc; cbn [fold_left];
        [now rewrite app_nil_r |].
      rewrite IH. unfold log_free. now rewrite <- app_assoc. }
    apply Hlog.
  - induction pl as [| addr slots l successor IH]; [reflexivity |].
    cbn [chain_addrs chain_length length]. now rewrite IH.
Qed.

(** ** Creation, first allocation and release *)

Lemma node_owns_bound dm l :
  0 <= l ->
  to_ulong dm (Z.shiftl (SSG_SIZE dm) l) = to_ulong dm (SSG_SIZE dm * 2 ^ l).
Proof. intros Hl. now rewrite Z.shiftl_mul_pow2. Qed.

(** X9: the extra-data pointer that [pool_create_extra] stores is the first
    address past the range [pool_free] attributes to the node, so no pointer
    into the extra data is ever taken for a slot: with the node alone in its
    chain, [pool_free] on such a pointer fails its assertion, whatever the
    state of the slots.  Without [edata] the same node is created. *)
Theorem create_extra_data_past_slots
    (heap : Type) (malloc : Z -> heap -> Z * heap) dm n extra h :
  1 <= n <= 2 ^ 31 ->
  0 < fst (malloc (to_ulong dm (sizeof_pool dm + SSG_SIZE dm * npot n + extra)) h) ->
  exists buf l ed h',
    pool_create_extra malloc dm n extra true h
      = Ok (Node buf (ssg_empty dm) l NULL, Some ed, h') /\
    pool_create_extra malloc dm n extra false h
      = Ok (Node buf (ssg_empty dm) l NULL, None, h') /\
    ed = pool_source dm buf + to_ulong dm (SSG_SIZE dm * npot n) /\
    pool_source dm buf <= ed /\
    forall p slots, ed <= p ->
      node_owns dm buf l p = false /\
      pool_free dm (Node buf slots l NULL) p = AssertFail.
Proof.
  intros Hn Hm.
  destruct (malloc _ h) as [buf h'] eqn:Em. cbn [fst] in Hm.
  destruct (pool_create_extra_ok malloc dm n extra true h buf h' Hn Em
              ltac:(lia)) as (l & Hl & Hp & Hc).
  destruct (pool_create_extra_ok malloc dm n extra false h buf h' Hn Em
              ltac:(lia)) as (l2 & Hl2 & Hp2 & Hc2).
  assert (l2 = l).
  { apply (Z.pow_inj_r 2); lia. }
  subst l2.
  assert (Hu : 0 <= to_ulong dm (SSG_SIZE dm * npot n)).
  { unfold to_ulong. apply Z.mod_pos_bound. apply Z.pow_pos_nonneg; [lia |].
    pose proof (long_bits_pos dm). lia. }
  exists buf, l. eexists. exists h'.
  split; [exact Hc |]. split; [exact Hc2 |]. split; [reflexivity |].
  split; [unfold pool_source in *; lia |].
  intros p slots Hpe.
  assert (Ho : node_owns dm buf l p = false).
  { unfold node_owns. rewrite node_owns_bound by lia. rewrite <- Hp.
    apply andb_false_iff. right. apply Z.ltb_ge. exact Hpe. }
  split; [exact Ho |].
  apply pool_free_unowned_fatal.
  - assert (0 < sizeof_pool dm) by (destruct dm; cbn; lia).
    unfold pool_source in *. lia.
  - cbn [chain_owns]. rewrite Ho. reflexivity.
Qed.

Lemma create_extra_data_past_slots_witness :
  (1 <= 8 <= 2 ^ 31 /\
   0 < fst (bump_malloc
              (to_ulong LP64 (sizeof_pool LP64 + SSG_SIZE LP64 * npot 8 + 100)) 4096)) /\
  exists buf l ed h',
    pool_create_extra bump_malloc LP64 8 100 true 4096
      = Ok (Node buf (ssg_empty LP64) l NULL, Some ed, h') /\
    pool_create_extra bump_malloc LP64 8 100 false 4096
      = Ok (Node buf (ssg_empty LP64) l NULL, None, h') /\
    ed = pool_source LP64 buf + to_ulong LP64 (SSG_SIZE LP64 * npot 8) /\
    pool_source LP64 buf <= ed /\
    forall p slots, ed <= p ->
      node_owns LP64 buf l p = false /\
      pool_free LP64 (Node buf slots l NULL) p = AssertFail.
Proof.
  assert (H1 : 1 <= 8 <= 2 ^ 31) by lia.
  assert (H2 : 0 < fst (bump_malloc
              (to_ulong LP64 (sizeof_pool LP64 + SSG_SIZE LP64 * npot 8 + 100)) 4096))
    by (vm_compute; reflexivity).
  split; [split; assumption |].
  exact (create_extra_data_past_slots Z bump_malloc LP64 8 100 4096 H1 H2).
Defined.

Lemma node_owns_base dm buf l n :
  0 <= l -> npot n = 2 ^ l -> 1 <= n ->
  SSG_SIZE dm * npot n < 2 ^ long_bits dm ->
  node_owns dm buf l (pool_source dm buf) = true.
Proof.
  intros Hl Hp Hn Hfit. unfold node_owns.
  rewrite node_owns_bound, <- Hp by exact Hl.
  assert (Hpos : 0 < npot n) by (rewrite Hp; apply Z.pow_pos_nonneg; lia).
  assert (H64 : SSG_SIZE dm = 64) by apply SSG_SIZE_64.
  unfold to_ulong. rewrite Z.mod_small by lia.
  apply andb_true_iff. split; [apply Z.leb_refl | apply Z.ltb_lt; lia].
Qed.

(** X10: the first allocation from a fresh pool returns the buffer base,
    the address right after the header; releasing that address gives the
    fresh pool back, and releasing it while the pool is fresh (a double
    free, or a pointer never handed out) fails the assertion.  The range
    test of [pool_free] needs [64 * stride] to fit [size_t]. *)
Theorem first_slot_round_trip
    (heap : Type) (malloc : Z -> heap -> Z * heap) dm n extra want h :
  1 <= n <= 2 ^ 31 ->
  SSG_SIZE dm * npot n < 2 ^ long_bits dm ->
  0 < fst (malloc (to_ulong dm (sizeof_pool dm + SSG_SIZE dm * npot n + extra)) h) ->
  exists buf l edata h' pl1,
    pool_create_extra malloc dm n extra want h
      = Ok (Node buf (ssg_empty dm) l NULL, edata, h') /\
    (forall fuel h2,
       pool_alloc malloc dm (S fuel) (Node buf (ssg_empty dm) l NULL) h2
       = Ok (pool_source dm buf, pl1, h2)) /\
    pl1 <> Node buf (ssg_empty dm) l NULL /\
    pool_free dm pl1 (pool_source dm buf) = Ok (Node buf (ssg_empty dm) l NULL) /\
    pool_free dm (Node buf (ssg_empty dm) l NULL) (pool_source dm buf)
      = AssertFail.
Proof.
  intros Hn Hfit Hm.
  destruct (malloc _ h) as [buf h'] eqn:Em. cbn [fst] in Hm.
  destruct (pool_create_extra_ok malloc dm n extra want h buf h' Hn Em
              ltac:(lia)) as (l & Hl & Hp & Hc).
  assert (Hsrc : pool_source dm buf <> 0).
  { assert (0 < sizeof_pool dm) by (destruct dm; cbn; lia).
    unfold pool_source. lia. }
  pose proof (node_owns_base dm buf l n ltac:(lia) Hp ltac:(lia) Hfit) as Ho.
  exists buf, l. eexists. exists h'.
  exists (Node buf (list_set (ssg_empty dm) 0 (2 ^ long_bits dm - 2)) l NULL).
  split; [exact Hc |]. split; [| split; [| split]].
  - intros fuel h2.
    rewrite pool_alloc_not_full by apply ssg_empty_not_full.
    rewrite ssg_empty_find. cbn [bind]. rewrite ssg_empty_mark. cbn [bind].
    rewrite Z.shiftl_0_l. change (to_int 0) with 0. now rewrite Z.add_0_r.
  - destruct dm; intros H; inversion H.
  - rewrite pool_free_owner by assumption. cbv zeta.
    rewrite Z.sub_diag. change (to_unsigned 0) with 0.
    rewrite Z.shiftr_0_l. change (to_int 0) with 0.
    destruct dm; reflexivity.
  - rewrite pool_free_owner by assumption. cbv zeta.
    rewrite Z.sub_diag. change (to_unsigned 0) with 0.
    rewrite Z.shiftr_0_l. change (to_int 0) with 0.
    destruct dm; reflexivity.
Qed.

Lemma first_slot_round_trip_witness :
  (1 <= 24 <= 2 ^ 31 /\
   SSG_SIZE ILP32 * npot 24 < 2 ^ long_bits ILP32 /\
   0 < fst (bump_malloc
              (to_ulong ILP32 (sizeof_pool ILP32 + SSG_SIZE ILP32 * npot 24 + 0)) 4096)) /\
  exists buf l edata h' pl1,
    pool_create_extra bump_malloc ILP32 24 0 false 4096
      = Ok (Node buf (ssg_empty ILP32) l NULL, edata, h') /\
    (forall fuel h2,
       pool_alloc bump_malloc ILP32 (S fuel) (Node buf (ssg_empty ILP32) l NULL) h2
       = Ok (pool_source ILP32 buf, pl1, h2)) /\
    pl1 <> Node buf (ssg_empty ILP32) l NULL /\
    pool_free ILP32 pl1 (pool_source ILP32 buf)
      = Ok (Node buf (ssg_empty ILP32) l NULL) /\
    pool_free ILP32 (Node buf (ssg_empty ILP32) l NULL) (pool_source ILP32 buf)
      = AssertFail.
Proof.
  assert (H1 : 1 <= 24 <= 2 ^ 31) by lia.
  assert (H2 : SSG_SIZE ILP32 * npot 24 < 2 ^ long_bits ILP32)
    by (vm_compute; reflexivity).
  assert (H3 : 0 < fst (bump_malloc
              (to_ulong ILP32 (sizeof_pool ILP32 + SSG_SIZE ILP32 * npot 24 + 0)) 4096))
    by (vm_compute; reflexivity).
  split; [split; [exact H1 | split; [exact H2 | exact H3]] |].
  exact (first_slot_round_trip Z bump_malloc ILP32 24 0 false 4096 H1 H2 H3).
Defined.

(** X11: under ILP32 the size handed to [malloc] is computed in 32 bits.
    For a request above [2^25] the slot buffer alone, [64 * stride], is a
    multiple of [2^32] and drops out: [malloc] is asked for the 16 bytes of
    the header plus the extra data, and a pool with an exponent of 26 or
    more is returned on that block. *)
Theorem create_request_wraps_under_ILP32
    (heap : Type) (malloc : Z -> heap -> Z * heap) n extra want h :
  2 ^ 25 < n <= 2 ^ 31 ->
  0 <= extra < 2 ^ 32 - 16 ->
  fst (malloc (16 + extra) h) <> 0 ->
  exists l edata,
    26 <= l <= 31 /\ npot n = 2 ^ l /\
    pool_create_extra malloc ILP32 n extra want h
      = Ok (Node (fst (malloc (16 + extra) h)) (ssg_empty ILP32) l NULL,
            edata, snd (malloc (16 + extra) h)).
Proof.
  intros Hn He Hm.
  destruct (npot_pow2_exponent n ltac:(lia)) as (l & Hl & Hp & (k & _ & _ & Hge & _)).
  assert (Hl26 : 26 <= l).
  { assert (25 < l); [| lia]. apply (Z.pow_lt_mono_r_iff 2); lia. }
  assert (Hsize : to_ulong ILP32 (sizeof_pool ILP32 + SSG_SIZE ILP32 * npot n + extra)
                  = 16 + extra).
  { unfold to_ulong. change (2 ^ long_bits ILP32) with (2 ^ 32).
    change (sizeof_pool ILP32) with 16. change (SSG_SIZE ILP32) with 64.
    rewrite Hp.
    replace (16 + 64 * 2 ^ l + extra) with (16 + extra + 2 ^ (l - 26) * 2 ^ 32).
    - rewrite Z.mod_add by lia. apply Z.mod_small. lia.
    - replace (2 ^ l) with (2 ^ (l - 26) * 2 ^ 26)
        by (rewrite <- Z.pow_add_r by lia; f_equal; lia).
      lia. }
  destruct (malloc (16 + extra) h) as [buf h'] eqn:Em. cbn [fst snd] in *.
  destruct (pool_create_extra_ok malloc ILP32 n extra want h buf h' ltac:(lia)
              ltac:(rewrite Hsize; exact Em) Hm) as (l2 & Hl2 & Hp2 & Hc).
  assert (l2 = l) by (apply (Z.pow_inj_r 2); lia). subst l2.
  exists l. eexists. split; [lia |]. split; [exact Hp | exact Hc].
Qed.

Lemma create_request_wraps_under_ILP32_witness :
  (2 ^ 25 < 2 ^ 26 <= 2 ^ 31 /\ 0 <= 0 < 2 ^ 32 - 16 /\
   fst (bump_malloc (16 + 0) 4096) <> 0) /\
  exists l edata,
    26 <= l <= 31 /\ npot (2 ^ 26) = 2 ^ l /\
    pool_create_extra bump_malloc ILP32 (2 ^ 26) 0 false 4096
      = Ok (Node (fst (bump_malloc (16 + 0) 4096)) (ssg_empty ILP32) l NULL,
            edata, snd (bump_malloc (16 + 0) 4096)).
Proof.
  assert (H1 : 2 ^ 25 < 2 ^ 26 <= 2 ^ 31) by lia.
  assert (H2 : 0 <= 0 < 2 ^ 32 - 16) by lia.
  assert (H3 : fst (bump_malloc (16 + 0) 4096) <> 0) by (vm_compute; discriminate).
  split; [split; [exact H1 | split; [exact H2 | exact H3]] |].
  exact (create_request_wraps_under_ILP32 Z bump_malloc (2 ^ 26) 0 false 4096
           H1 H2 H3).
Defined.

(** ** Frames of release and allocation *)

(** X12: a release that returns normally changes no node's address or
    exponent and adds or removes no node; it returns the chain unchanged for
    a null pointer, and otherwise some node of the chain passes the range
    test for the pointer: no pointer foreign to the chain is ever accepted. *)
Theorem pool_free_keeps_chain_shape dm pl ptr pl' :
  pool_free dm pl ptr = Ok pl' ->
  chain_shape pl' = chain_shape pl /\
  chain_length pl' = chain_length pl /\
  (ptr = 0 -> pl' = pl) /\
  (ptr <> 0 -> chain_owns dm pl ptr = true).
Proof.
  intros Hf. split; [| split; [| split]].
  - revert pl' Hf. induction pl as [| addr slots l successor IH]; intros pl' Hf;
      [discriminate |].
    cbn [pool_free] in Hf.
    destruct (ptr =? 0); [now inversion Hf |].
    destruct (_ && _).
    + destruct (ssg_test dm slots _) as [t | | |]; cbn [bind] in Hf;
        try discriminate.
      destruct t; cbn [assert bind] in Hf; try discriminate.
      destruct (ssg_unmark dm slots _) as [slots' | | |]; cbn [bind] in Hf;
        try discriminate.
      now inversion Hf.
    + destruct successor as [| a2 sl2 l2 s2]; [discriminate |].
      bind_ok (pool_free dm (Node a2 sl2 l2 s2) ptr) as [s' | | |] eqn:E in Hf.
      inversion Hf; subst. cbn [chain_shape]. f_equal.
      exact (IH s' eq_refl).
  - revert pl' Hf. induction pl as [| addr slots l successor IH]; intros pl' Hf;
      [discriminate |].
    cbn [pool_free] in Hf.
    destruct (ptr =? 0); [now inversion Hf |].
    destruct (_ && _).
    + destruct (ssg_test dm slots _) as [t | | |]; cbn [bind] in Hf;
        try discriminate.
      destruct t; cbn [assert bind] in Hf; try discriminate.
      destruct (ssg_unmark dm slots _) as [slots' | | |]; cbn [bind] in Hf;
        try discriminate.
      now inversion Hf.
    + destruct successor as [| a2 sl2 l2 s2]; [discriminate |].
      bind_ok (pool_free dm (Node a2 sl2 l2 s2) ptr) as [s' | | |] eqn:E in Hf.
      inversion Hf; subst. cbn [chain_length]. f_equal.
      exact (IH s' eq_refl).
  - intros ->. destruct pl; [discriminate |].
    rewrite pool_free_null in Hf. now inversion Hf.
  - intros Hp. destruct (chain_owns dm pl ptr) eqn:Eo; [reflexivity |].
    rewrite (pool_free_unowned_fatal dm pl ptr Hp Eo) in Hf. discriminate.
Qed.

Lemma pool_free_keeps_chain_shape_witness :
  pool_free ILP32 (Node 4096 [2 ^ 32 - 2; 2 ^ 32 - 1] 3 NULL) 4112
    = Ok (Node 4096 [2 ^ 32 - 1; 2 ^ 32 - 1] 3 NULL) /\
  chain_shape (Node 4096 [2 ^ 32 - 1; 2 ^ 32 - 1] 3 NULL)
    = chain_shape (Node 4096 [2 ^ 32 - 2; 2 ^ 32 - 1] 3 NULL) /\
  chain_length (Node 4096 [2 ^ 32 - 1; 2 ^ 32 - 1] 3 NULL)
    = chain_length (Node 4096 [2 ^ 32 - 2; 2 ^ 32 - 1] 3 NULL) /\
  (4112 = 0 -> Node 4096 [2 ^ 32 - 1; 2 ^ 32 - 1] 3 NULL
               = Node 4096 [2 ^ 32 - 2; 2 ^ 32 - 1] 3 NULL) /\
  (4112 <> 0 ->
   chain_owns ILP32 (Node 4096 [2 ^ 32 - 2; 2 ^ 32 - 1] 3 NULL) 4112 = true).
Proof.
  assert (H : pool_free ILP32 (Node 4096 [2 ^ 32 - 2; 2 ^ 32 - 1] 3 NULL) 4112
              = Ok (Node 4096 [2 ^ 32 - 1; 2 ^ 32 - 1] 3 NULL))
    by (vm_compute; reflexivity).
  split; [exact H |].
  exact (pool_free_keeps_chain_shape ILP32 _ 4112 _ H).
Defined.

Lemma pool_create_single_node (heap : Type) (malloc : Z -> heap -> Z * heap)
    dm n h s h1 :
  pool_create malloc dm n h = Ok (s, h1) ->
  exists buf l, s = Node buf (ssg_empty dm) l NULL /\ buf <> 0.
Proof.
  unfold pool_create.
  destruct (pool_create_extra malloc dm n 0 false h) as [[[pl e] h2] | | |] eqn:E;
    cbn [bind]; try discriminate.
  intros H. inversion H; subst.
  destruct (pool_create_extra_inv malloc dm _ _ _ _ _ _ _ E)
    as (buf & l & -> & _ & Hb).
  now exists buf, l.
Qed.

Lemma pool_create_malloc_inv (heap : Type) (malloc : Z -> heap -> Z * heap)
    dm n h s h1 :
  pool_create malloc dm n h = Ok (s, h1) ->
  exists buf l,
    s = Node buf (ssg_empty dm) l NULL /\ buf <> 0 /\
    malloc (to_ulong dm (sizeof_pool dm + SSG_SIZE dm * npot n + 0)) h = (buf, h1).
Proof.
  unfold pool_create, pool_create_extra.
  destruct (negb (n =? 0)); cbn [assert bind]; [| discriminate].
  destruct (malloc _ h) as [buf h2] eqn:Em.
  destruct (Z.eqb_spec buf 0) as [| Hb]; cbn [negb assert bind]; [discriminate |].
  destruct (builtin_ctz (npot n)) as [c | | |]; cbn [bind]; try discriminate.
  intros H. inversion H; subst. exists buf, (to_unsigned c).
  split; [reflexivity | split; [exact Hb | reflexivity]].
Qed.

Lemma pool_alloc_fresh_node (heap : Type) (malloc : Z -> heap -> Z * heap)
    dm fuel buf l h loc pl' h' :
  pool_alloc malloc dm fuel (Node buf (ssg_empty dm) l NULL) h = Ok (loc, pl', h') ->
  loc = pool_source dm buf /\ h' = h /\ chain_shape pl' = [(buf, l)].
Proof.
  destruct fuel as [| fuel]; [discriminate |].
  rewrite pool_alloc_not_full by apply ssg_empty_not_full.
  rewrite ssg_empty_find. cbn [bind]. rewrite ssg_empty_mark. cbn [bind].
  rewrite Z.shiftl_0_l. change (to_int 0) with 0. rewrite Z.add_0_r.
  intros H. inversion H; subst. repeat split.
Qed.

(** X13: an allocation that returns normally keeps every node of the chain
    at its address with its exponent.  While some node is not full it adds
    no node and leaves the system allocator alone.  When every node is full
    it calls [malloc] once, on the heap it was given and for the size of a
    pool of [1 << l2s] bytes per slot, [l2s] being the exponent of the last
    node; the block returned is not null, becomes the one new node, at the
    tail, and its buffer base is the address returned; the heap afterwards
    is the one that call of [malloc] left. *)
Theorem pool_alloc_extends_chain_by_at_most_one
    (heap : Type) (malloc : Z -> heap -> Z * heap) dm fuel pl h loc pl' h' :
  pool_alloc malloc dm fuel pl h = Ok (loc, pl', h') ->
  (chain_all_full pl = false -> chain_shape pl' = chain_shape pl /\ h' = h) /\
  (chain_all_full pl = true ->
   exists buf l,
     malloc (to_ulong dm
               (sizeof_pool dm
                + SSG_SIZE dm * npot (to_unsigned (Z.shiftl 1 (chain_tail_l2s pl)))
                + 0)) h = (buf, h') /\
     buf <> 0 /\
     chain_shape pl' = chain_shape pl ++ [(buf, l)] /\
     (0 <= chain_tail_l2s pl <= 31 -> l = chain_tail_l2s pl) /\
     loc = pool_source dm buf).
Proof.
  revert pl h loc pl' h'.
  induction fuel as [| fuel IH]; intros pl h loc pl' h' Ha; [discriminate |].
  destruct pl as [| addr slots l successor]; [discriminate |].
  cbn [pool_alloc] in Ha. cbn [chain_all_full].
  destruct (ssg_is_full slots); cbn [andb].
  - destruct successor as [| a2 sl2 l2 s2].
    + bind_ok (pool_create malloc dm (to_unsigned (Z.shiftl 1 l)) h)
        as [[s h1] | | |] eqn:Ec in Ha.
      bind_ok (pool_alloc malloc dm fuel s h1)
        as [[[loc1 s''] h2] | | |] eqn:Ea in Ha.
      inversion Ha; subst.
      destruct (pool_create_malloc_inv _ malloc dm _ _ _ _ Ec)
        as (buf & l' & -> & Hb & Hm).
      destruct (pool_alloc_fresh_node _ malloc dm fuel buf l' h1 _ _ _ Ea)
        as (-> & -> & Hshape).
      split; [discriminate |]. intros _. exists buf, l'.
      cbn [chain_tail_l2s chain_shape app].
      split; [exact Hm |]. split; [exact Hb |].
      split; [now rewrite Hshape |]. split; [| reflexivity].
      intros Hl.
      destruct (pool_create_same_l2s malloc dm l h _ _ Hl Ec) as (buf2 & E & _).
      now inversion E.
    + cbn [bind] in Ha.
      bind_ok (pool_alloc malloc dm fuel (Node a2 sl2 l2 s2) h)
        as [[[loc1 s''] h2] | | |] eqn:Ea in Ha.
      inversion Ha; subst.
      destruct (IH _ _ _ _ _ Ea) as [Hnf Hfull].
      split.
      * intros Hf. destruct (Hnf Hf) as [Hshape Hh].
        split; [| exact Hh]. cbn [chain_shape] in *. now rewrite Hshape.
      * intros Hf. destruct (Hfull Hf) as (buf & l' & Hm & Hb & Hshape & Hl & Hloc).
        exists buf, l'.
        change (chain_tail_l2s (Node addr slots l (Node a2 sl2 l2 s2)))
          with (chain_tail_l2s (Node a2 sl2 l2 s2)).
        split; [exact Hm |]. split; [exact Hb |].
        split; [cbn [chain_shape app] in *; now rewrite Hshape |].
        split; assumption.
  - bind_ok (ssg_find dm slots) as [pos | | |] in Ha.
    bind_ok (ssg_mark dm slots pos) as [slots' | | |] in Ha.
    inversion Ha; subst.
    split; [intros _; split; reflexivity | discriminate].
Qed.

Lemma pool_alloc_extends_chain_by_at_most_one_witness :
  pool_alloc bump_malloc LP64 3 (Node 4096 [0] 3 (Node 6000 [0] 3 NULL)) 8192
    = Ok (8216, Node 4096 [0] 3 (Node 6000 [0] 3 (Node 8192 [2 ^ 64 - 2] 3 NULL)),
          8736) /\
  (chain_all_full (Node 4096 [0] 3 (Node 6000 [0] 3 NULL)) = false ->
   chain_shape (Node 4096 [0] 3 (Node 6000 [0] 3 (Node 8192 [2 ^ 64 - 2] 3 NULL)))
     = chain_shape (Node 4096 [0] 3 (Node 6000 [0] 3 NULL)) /\ 8736 = 8192) /\
  (chain_all_full (Node 4096 [0] 3 (Node 6000 [0] 3 NULL)) = true ->
   exists buf l,
     bump_malloc
       (to_ulong LP64
          (sizeof_pool LP64
           + SSG_SIZE LP64
             * npot (to_unsigned
                       (Z.shiftl 1
                          (chain_tail_l2s (Node 4096 [0] 3 (Node 6000 [0] 3 NULL)))))
           + 0)) 8192 = (buf, 8736) /\
     buf <> 0 /\
     chain_shape (Node 4096 [0] 3 (Node 6000 [0] 3 (Node 8192 [2 ^ 64 - 2] 3 NULL)))
       = chain_shape (Node 4096 [0] 3 (Node 6000 [0] 3 NULL)) ++ [(buf, l)] /\
     (0 <= chain_tail_l2s (Node 4096 [0] 3 (Node 6000 [0] 3 NULL)) <= 31 ->
      l = chain_tail_l2s (Node 4096 [0] 3 (Node 6000 [0] 3 NULL))) /\
     8216 = pool_source LP64 buf).
Proof.
  assert (H : pool_alloc bump_malloc LP64 3
                (Node 4096 [0] 3 (Node 6000 [0] 3 NULL)) 8192
              = Ok (8216,
                    Node 4096 [0] 3 (Node 6000 [0] 3 (Node 8192 [2 ^ 64 - 2] 3 NULL)),
                    8736))
    by (vm_compute; reflexivity).
  split; [exact H |].
  exact (pool_alloc_extends_chain_by_at_most_one Z bump_malloc LP64 3 _ 8192 _ _ _ H).
Defined.

(** ** What a pool built by the code can hand out *)

Lemma spare_bit_find_bound dm (x : ssg_t) pos :
  spare_bit_set dm x -> ssg_find dm x = Ok pos -> 0 <= pos <= SSG_COUNT dm.
Proof.
  intros [_ Hbit] Hf.
  assert (Hc : 0 < SSG_COUNT dm <= 2) by (destruct dm; cbn; lia).
  destruct x as [| w rest]; cbn [hd] in Hbit;
    [rewrite Z.bits_0 in Hbit; discriminate |].
  unfold ssg_find in Hf. cbn [ssg_find_from] in Hf. unfold SS_FULL in Hf.
  destruct (Z.eqb_spec w 0) as [-> | _];
    [rewrite Z.bits_0 in Hbit; discriminate |].
  cbn [negb] in Hf. unfold ss_find, builtin_ctz in Hf.
  assert (Hlow : Z.testbit (to_unsigned w) (SSG_COUNT dm) = true).
  { unfold to_unsigned, int_bits. rewrite Z.mod_pow2_bits_low by lia. exact Hbit. }
  destruct (to_unsigned w) as [| p | p]; cbn [bind] in Hf; try discriminate.
  inversion Hf; subst. pose proof (ctz_pos_nonneg p) as H0.
  assert (Hle : ctz_pos p <= SSG_COUNT dm).
  { destruct (Z_le_gt_dec (ctz_pos p) (SSG_COUNT dm)) as [Hle | Hgt];
      [exact Hle | exfalso].
    rewrite (ctz_pos_below p (SSG_COUNT dm)) in Hlow by lia. discriminate. }
  rewrite to_int_small by lia. lia.
Qed.

Lemma ssg_mark_ok_in_bounds dm (x x' : ssg_t) pos :
  Z.of_nat (length x) = SSG_COUNT dm -> 0 <= pos < 2 ^ 31 ->
  ssg_mark dm x pos = Ok x' -> pos < SSG_COUNT dm * SSG_COUNT dm.
Proof.
  intros Hlen Hp Hm.
  destruct (Z_lt_le_dec pos (SSG_COUNT dm * SSG_COUNT dm)) as [Hlt | Hge];
    [exact Hlt | exfalso].
  assert (Hc : 0 < SSG_COUNT dm) by (destruct dm; cbn; lia).
  unfold ssg_mark, ssg_get, _ssg_bucket in Hm.
  rewrite (to_unsigned_small pos) in Hm by lia.
  assert (Hq : SSG_COUNT dm <= pos / SSG_COUNT dm)
    by (apply Z.div_le_lower_bound; lia).
  assert (Hu : pos / SSG_COUNT dm <= pos) by (apply Z.div_le_upper_bound; nia).
  rewrite (to_unsigned_small (pos / SSG_COUNT dm)) in Hm by lia.
  destruct (_ <? 0); [discriminate |].
  destruct (nth_error x (Z.to_nat (pos / SSG_COUNT dm))) eqn:E;
    [| discriminate].
  assert ((Z.to_nat (pos / SSG_COUNT dm) < length x)%nat)
    by (apply nth_error_Some; rewrite E; discriminate).
  lia.
Qed.

(** X14: a chain obtained from [pool_create_extra] by any sequence of
    allocations and releases that return normally is a single node whose
    group is not full: no allocation on it reaches the system allocator or
    adds a successor. *)
Theorem fresh_pool_never_chains
    (heap : Type) (malloc : Z -> heap -> Z * heap) dm pl :
  reachable malloc dm pl ->
  chain_length pl = 1%nat /\
  chain_all_full pl = false /\
  forall fuel h loc pl' h',
    pool_alloc malloc dm fuel pl h = Ok (loc, pl', h') ->
    h' = h /\ chain_shape pl' = chain_shape pl.
Proof.
  intros Hr.
  destruct (reachable_single_node _ malloc dm pl Hr)
    as (addr & slots & l & -> & _ & Hnf).
  split; [reflexivity |]. split; [cbn [chain_all_full]; now rewrite Hnf |].
  intros fuel h loc pl' h' Ha.
  destruct fuel as [| fuel]; [discriminate |].
  rewrite pool_alloc_not_full in Ha by exact Hnf.
  bind_ok (ssg_find dm slots) as [pos | | |] in Ha.
  bind_ok (ssg_mark dm slots pos) as [slots' | | |] in Ha.
  inversion Ha; subst. split; reflexivity.
Qed.

Lemma fresh_pool_never_chains_witness :
  reachable bump_malloc ILP32 (Node 4096 (ssg_empty ILP32) 3 NULL) /\
  chain_length (Node 4096 (ssg_empty ILP32) 3 NULL) = 1%nat /\
  chain_all_full (Node 4096 (ssg_empty ILP32) 3 NULL) = false /\
  forall fuel h loc pl' h',
    pool_alloc bump_malloc ILP32 fuel (Node 4096 (ssg_empty ILP32) 3 NULL) h
      = Ok (loc, pl', h') ->
    h' = h /\ chain_shape pl' = chain_shape (Node 4096 (ssg_empty ILP32) 3 NULL).
Proof.
  assert (H : reachable bump_malloc ILP32 (Node 4096 (ssg_empty ILP32) 3 NULL)).
  { apply (reach_create bump_malloc ILP32 8 0 false 4096 _ None 4624).
    vm_compute. reflexivity. }
  split; [exact H |].
  exact (fresh_pool_never_chains Z bump_malloc ILP32 _ H).
Defined.

(** X15: from such a chain an allocation that returns normally serves the
    slot [ssg_find] reports, and that slot has an index of at most
    [SSG_COUNT] and below [SSG_COUNT * SSG_COUNT]: one of the slots 0, 1, 2
    under ILP32, and slot 0 alone under LP64.  For strides up to [2^24] the
    address returned is the buffer base plus the index times the stride;
    under LP64 it is the buffer base. *)
Theorem fresh_pool_hands_out_low_slots
    (heap : Type) (malloc : Z -> heap -> Z * heap) dm pl fuel h loc pl' h' :
  reachable malloc dm pl ->
  pool_alloc malloc dm fuel pl h = Ok (loc, pl', h') ->
  exists addr slots slots' l pos,
    pl = Node addr slots l NULL /\
    pl' = Node addr slots' l NULL /\
    ssg_find dm slots = Ok pos /\
    ssg_mark dm slots pos = Ok slots' /\
    0 <= pos <= SSG_COUNT dm /\
    pos < SSG_COUNT dm * SSG_COUNT dm /\
    (l <= 24 -> loc = pool_source dm addr + pos * 2 ^ l) /\
    (dm = LP64 -> pos = 0 /\ loc = pool_source dm addr).
Proof.
  intros Hr Ha.
  destruct (reachable_l2s_uniform malloc dm pl Hr) as (v & Hv & Hu).
  destruct (reachable_single_node _ malloc dm pl Hr)
    as (addr & slots & l & -> & Hs & Hnf).
  destruct Hu as [-> _].
  destruct fuel as [| fuel]; [discriminate |].
  rewrite pool_alloc_not_full in Ha by exact Hnf.
  bind_ok (ssg_find dm slots) as [pos | | |] eqn:Ef in Ha.
  bind_ok (ssg_mark dm slots pos) as [slots' | | |] eqn:Em in Ha.
  inversion Ha; subst.
  pose proof (spare_bit_find_bound dm slots pos Hs Ef) as Hpos.
  assert (Hc : SSG_COUNT dm <= 2) by (destruct dm; cbn; lia).
  pose proof (ssg_mark_ok_in_bounds dm slots slots' pos (proj1 Hs)
                ltac:(lia) Em) as Hin.
  exists addr, slots, slots', v, pos.
  split; [reflexivity |]. split; [reflexivity |]. split; [exact Ef |].
  split; [exact Em |]. split; [exact Hpos |]. split; [exact Hin |]. split.
  - intros Hl. f_equal. rewrite Z.shiftl_mul_pow2 by lia.
    assert (Hpow : 0 < 2 ^ v <= 2 ^ 24)
      by (split; [apply Z.pow_pos_nonneg; lia | apply Z.pow_le_mono_r; lia]).
    apply to_int_small. nia.
  - intros ->. change (SSG_COUNT LP64) with 1 in *.
    assert (pos = 0) by lia. subst pos. split; [reflexivity |].
    rewrite Z.shiftl_0_l. change (to_int 0) with 0. lia.
Qed.

Lemma fresh_pool_hands_out_low_slots_witness :
  (reachable bump_malloc ILP32 (Node 4096 [2 ^ 32 - 2; 2 ^ 32 - 1] 3 NULL) /\
   pool_alloc bump_malloc ILP32 1 (Node 4096 [2 ^ 32 - 2; 2 ^ 32 - 1] 3 NULL) 4624
     = Ok (4120, Node 4096 [2 ^ 32 - 4; 2 ^ 32 - 1] 3 NULL, 4624)) /\
  exists addr slots slots' l pos,
    Node 4096 [2 ^ 32 - 2; 2 ^ 32 - 1] 3 NULL = Node addr slots l NULL /\
    Node 4096 [2 ^ 32 - 4; 2 ^ 32 - 1] 3 NULL = Node addr slots' l NULL /\
    ssg_find ILP32 slots = Ok pos /\
    ssg_mark ILP32 slots pos = Ok slots' /\
    0 <= pos <= SSG_COUNT ILP32 /\
    pos < SSG_COUNT ILP32 * SSG_COUNT ILP32 /\
    (l <= 24 -> 4120 = pool_source ILP32 addr + pos * 2 ^ l) /\
    (ILP32 = LP64 -> pos = 0 /\ 4120 = pool_source ILP32 addr).
Proof.
  assert (H1 : reachable bump_malloc ILP32
                 (Node 4096 [2 ^ 32 - 2; 2 ^ 32 - 1] 3 NULL)).
  { apply (reach_alloc bump_malloc ILP32 1
             (Node 4096 [2 ^ 32 - 1; 2 ^ 32 - 1] 3 NULL) 4624 4112 _ 4624).
    - apply (reach_create bump_malloc ILP32 8 0 false 4096 _ None 4624).
      vm_compute. reflexivity.
    - vm_compute. reflexivity. }
  assert (H2 : pool_alloc bump_malloc ILP32 1
                 (Node 4096 [2 ^ 32 - 2; 2 ^ 32 - 1] 3 NULL) 4624
               = Ok (4120, Node 4096 [2 ^ 32 - 4; 2 ^ 32 - 1] 3 NULL, 4624))
    by (vm_compute; reflexivity).
  split; [split; assumption |].
  exact (fresh_pool_hands_out_low_slots Z bump_malloc ILP32 _ 1 4624 _ _ _ H1 H2).
Defined.

(** X16 is [pool_alloc_fuel_enough] above: at a concrete chain. *)
Lemma pool_alloc_fuel_enough_witness :
  (chain_length (Node 4096%Z [0%Z] 3%Z NULL) + 1 < 3)%nat /\
  pool_alloc bump_malloc LP64 3 (Node 4096 [0] 3 NULL) 8192 <> OutOfFuel.
Proof.
  assert (H : (chain_length (Node 4096%Z [0%Z] 3%Z NULL) + 1 < 3)%nat) by (cbn; lia).
  split; [exact H |].
  exact (pool_alloc_fuel_enough Z bump_malloc LP64 (Node 4096 [0] 3 NULL) 8192 3 H).
Defined.

(** ** Allocation and the range test of release *)

Lemma ssg_find_range dm (x : ssg_t) pos :
  Z.of_nat (length x) = SSG_COUNT dm -> ssg_find dm x = Ok pos -> 0 <= pos < 64.
Proof.
  intros Hlen Hf.
  assert (Hss : forall s acc, 0 <= acc <= 32 ->
            (r <- ss_find s ;; Ok (to_int (acc + r))) = Ok pos -> 0 <= pos < 64).
  { intros s acc Hacc H. unfold ss_find in H.
    destruct (builtin_ctz s) as [c | | |] eqn:Ec; cbn [bind] in H;
      try discriminate.
    pose proof (builtin_ctz_range s c Ec). inversion H; subst.
    rewrite to_int_small by lia. lia. }
  unfold ssg_find in Hf.
  destruct dm.
  - destruct x as [| a [| b [| c x]]]; cbn in Hlen; try lia.
    cbn [ssg_find_from] in Hf.
    destruct (negb (a =? SS_FULL)); [apply (Hss a 0); [lia | exact Hf] |].
    destruct (negb (b =? SS_FULL)).
    + apply (Hss b (0 + SS_SIZE ILP32)); [cbn; lia | exact Hf].
    + inversion Hf. lia.
  - destruct x as [| a [| b x]]; cbn in Hlen; try lia.
    cbn [ssg_find_from] in Hf.
    destruct (negb (a =? SS_FULL)); [apply (Hss a 0); [lia | exact Hf] |].
    inversion Hf. lia.
Qed.

Lemma ssg_mark_length dm (x x' : ssg_t) pos :
  ssg_mark dm x pos = Ok x' -> length x' = length x.
Proof.
  unfold ssg_mark. intros H.
  destruct (ssg_get x (_ssg_bucket dm pos)) as [s | | |]; cbn [bind] in H;
    try discriminate.
  unfold ssg_set in H. destruct (_ && _); [| discriminate].
  inversion H. apply list_set_length.
Qed.

Lemma node_owns_slot dm addr v pos :
  0 <= v <= 24 -> 0 <= pos < 64 ->
  node_owns dm addr v (pool_source dm addr + to_int (Z.shiftl pos v)) = true.
Proof.
  intros Hv Hp.
  assert (Hpow : 0 < 2 ^ v <= 2 ^ 24)
    by (split; [apply Z.pow_pos_nonneg; lia | apply Z.pow_le_mono_r; lia]).
  unfold node_owns. rewrite !Z.shiftl_mul_pow2 by lia.
  rewrite to_int_small by nia.
  rewrite SSG_SIZE_64, to_ulong_small by nia.
  apply andb_true_iff. split; [apply Z.leb_le | apply Z.ltb_lt]; nia.
Qed.

(** X17: for strides up to [2^24] and groups of [SSG_COUNT] words, every
    address an allocation returns passes the range test of [pool_free] for a
    node of the resulting chain, so releasing it never ends in the failure
    for a pointer that no node owns; the groups keep their size. *)
Theorem alloc_result_in_owned_range
    (heap : Type) (malloc : Z -> heap -> Z * heap) dm fuel pl h loc pl' h' v :
  0 <= v <= 24 ->
  chain_l2s_all v pl ->
  chain_groups_sized dm pl ->
  pool_alloc malloc dm fuel pl h = Ok (loc, pl', h') ->
  chain_owns dm pl' loc = true /\
  chain_groups_sized dm pl' /\
  chain_l2s_all v pl'.
Proof.
  intros Hv. revert pl h loc pl' h'.
  induction fuel as [| fuel IH]; intros pl h loc pl' h' Hu Hg Ha;
    [discriminate |].
  destruct pl as [| addr slots l successor]; [discriminate |].
  destruct Hu as [-> Hu]. destruct Hg as [Hlen Hg].
  cbn [pool_alloc] in Ha.
  destruct (ssg_is_full slots).
  - assert (Hrec : exists s h1 s'',
              chain_l2s_all v s /\ chain_groups_sized dm s /\
              pool_alloc malloc dm fuel s h1 = Ok (loc, s'', h') /\
              pl' = Node addr slots v s'').
    { destruct successor as [| a2 sl2 l2 s2].
      - bind_ok (pool_create malloc dm (to_unsigned (Z.shiftl 1 v)) h)
          as [[s h1] | | |] eqn:Ec in Ha.
        bind_ok (pool_alloc malloc dm fuel s h1)
          as [[[loc1 s''] h2] | | |] eqn:Ea in Ha.
        inversion Ha; subst.
        destruct (pool_create_same_l2s malloc dm v h s h1 ltac:(lia) Ec)
          as [buf [-> _]].
        exists (Node buf (ssg_empty dm) v NULL), h1, s''.
        repeat split; try assumption. destruct dm; reflexivity.
      - cbn [bind] in Ha.
        bind_ok (pool_alloc malloc dm fuel (Node a2 sl2 l2 s2) h)
          as [[[loc1 s''] h2] | | |] eqn:Ea in Ha.
        inversion Ha; subst.
        exists (Node a2 sl2 l2 s2), h, s''. repeat split; try assumption;
          try apply Hu; apply Hg. }
    destruct Hrec as (s & h1 & s'' & Hus & Hgs & Ea & ->).
    destruct (IH s h1 loc s'' h' Hus Hgs Ea) as (Ho & Hg' & Hu').
    split; [cbn [chain_owns]; rewrite Ho; apply orb_true_r |].
    split; split; assumption || reflexivity.
  - bind_ok (ssg_find dm slots) as [pos | | |] eqn:Ef in Ha.
    bind_ok (ssg_mark dm slots pos) as [slots' | | |] eqn:Em in Ha.
    inversion Ha; subst.
    pose proof (ssg_find_range dm slots pos Hlen Ef) as Hpos.
    split; [cbn [chain_owns]; now rewrite node_owns_slot |].
    split; split; try assumption; try reflexivity.
    now rewrite (ssg_mark_length dm slots slots' pos Em).
Qed.

Lemma alloc_result_in_owned_range_witness :
  (0 <= 3 <= 24 /\
   chain_l2s_all 3 (Node 4096 [0] 3 NULL) /\
   chain_groups_sized LP64 (Node 4096 [0] 3 NULL) /\
   pool_alloc bump_malloc LP64 2 (Node 4096 [0] 3 NULL) 8192
     = Ok (8216, Node 4096 [0] 3 (Node 8192 [2 ^ 64 - 2] 3 NULL), 8736)) /\
  chain_owns LP64 (Node 4096 [0] 3 (Node 8192 [2 ^ 64 - 2] 3 NULL)) 8216 = true /\
  chain_groups_sized LP64 (Node 4096 [0] 3 (Node 8192 [2 ^ 64 - 2] 3 NULL)) /\
  chain_l2s_all 3 (Node 4096 [0] 3 (Node 8192 [2 ^ 64 - 2] 3 NULL)).
Proof.
  assert (H1 : 0 <= 3 <= 24) by lia.
  assert (H2 : chain_l2s_all 3 (Node 4096 [0] 3 NULL))
    by (split; [reflexivity | exact I]).
  assert (H3 : chain_groups_sized LP64 (Node 4096 [0] 3 NULL))
    by (split; [reflexivity | exact I]).
  assert (H4 : pool_alloc bump_malloc LP64 2 (Node 4096 [0] 3 NULL) 8192
               = Ok (8216, Node 4096 [0] 3 (Node 8192 [2 ^ 64 - 2] 3 NULL), 8736))
    by (vm_compute; reflexivity).
  split; [split; [exact H1 | split; [exact H2 | split; [exact H3 | exact H4]]] |].
  exact (alloc_result_in_owned_range Z bump_malloc LP64 2 _ 8192 _ _ _ 3
           H1 H2 H3 H4).
Defined.

(** ** The reversed slot sets *)

Lemma reverse_mask dm idx :
  0 <= idx <= 31 ->
  Z.shiftr (to_ulong dm ReverseSS.SIGNBIT) idx = 2 ^ (31 - idx).
Proof.
  intros Hi. unfold ReverseSS.SIGNBIT.
  rewrite to_ulong_small by lia.
  rewrite Z.shiftr_div_pow2 by lia.
  symmetry. apply Z.pow_sub_r; lia.
Qed.

Lemma SS_SIZE_ge_32 dm : 32 <= SS_SIZE dm.
Proof. destruct dm; cbn; lia. Qed.

Lemma reverse_mask_direct dm idx :
  0 <= idx <= 31 ->
  Z.shiftr (to_ulong dm ReverseSS.SIGNBIT) idx
  = to_ulong dm (Z.shiftl 1 (31 - idx)).
Proof.
  intros Hi. rewrite reverse_mask by exact Hi.
  rewrite ss_mask_pow2; [reflexivity |].
  pose proof (SS_SIZE_ge_32 dm). lia.
Qed.

Lemma builtin_clz_log2 x :
  0 < x < 2 ^ 32 -> builtin_clz x = Ok (31 - Z.log2 x).
Proof.
  intros Hx. unfold builtin_clz. rewrite to_unsigned_small by lia.
  destruct x as [| p | p]; try lia. reflexivity.
Qed.

(** X18: with [REVERSE_SS] the three slot operations are the direct ones at
    the mirrored index [31 - idx], and on a non-zero 32-bit set [ss_find]
    (count of leading zeros) returns the lowest index that [ss_test] reports
    as not occupied; marking that slot makes [ss_test] report it occupied,
    and unmarking it again restores the set. *)
Theorem reverse_slot_set_find_agrees dm (x : ss_t) :
  0 < x < 2 ^ 32 ->
  (forall idx y, 0 <= idx <= 31 ->
     ReverseSS.ss_test dm y idx = ss_test dm y (31 - idx) /\
     ReverseSS.ss_mark dm y idx = ss_mark dm y (31 - idx) /\
     ReverseSS.ss_unmark dm y idx = ss_unmark dm y (31 - idx)) /\
  exists i,
    ReverseSS.ss_find x = Ok i /\ 0 <= i <= 31 /\
    ReverseSS.ss_test dm x i = false /\
    (forall j, 0 <= j < i -> ReverseSS.ss_test dm x j = true) /\
    ReverseSS.ss_test dm (ReverseSS.ss_mark dm x i) i = true /\
    ReverseSS.ss_unmark dm (ReverseSS.ss_mark dm x i) i = x.
Proof.
  intros Hx.
  assert (Hmirror : forall idx y, 0 <= idx <= 31 ->
     ReverseSS.ss_test dm y idx = ss_test dm y (31 - idx) /\
     ReverseSS.ss_mark dm y idx = ss_mark dm y (31 - idx) /\
     ReverseSS.ss_unmark dm y idx = ss_unmark dm y (31 - idx)).
  { intros idx y Hi.
    unfold ReverseSS.ss_test, ReverseSS.ss_mark, ReverseSS.ss_unmark,
      ss_test, ss_mark, ss_unmark. cbv zeta.
    rewrite !reverse_mask_direct by exact Hi. repeat split. }
  split; [exact Hmirror |].
  assert (Hlog : 0 <= Z.log2 x < 32).
  { split; [apply Z.log2_nonneg | apply Z.log2_lt_pow2; lia]. }
  assert (Hw : 2 ^ 32 <= 2 ^ long_bits dm) by (destruct dm; cbn; lia).
  assert (Hss : forall b, 0 <= b <= 31 -> 0 <= b < SS_SIZE dm)
    by (intros b Hb; pose proof (SS_SIZE_ge_32 dm); lia).
  exists (31 - Z.log2 x).
  split; [unfold ReverseSS.ss_find; now apply builtin_clz_log2 |].
  split; [lia |].
  destruct (Hmirror (31 - Z.log2 x) x ltac:(lia)) as (Ht & Hm & _).
  replace (31 - (31 - Z.log2 x)) with (Z.log2 x) in * by lia.
  split; [| split; [| split]].
  - rewrite Ht, ss_test_negb_bit by (apply Hss; lia).
    rewrite Z.bit_log2 by lia. reflexivity.
  - intros j Hj. destruct (Hmirror j x ltac:(lia)) as (Htj & _).
    rewrite Htj, ss_test_negb_bit by (apply Hss; lia).
    rewrite Z.bits_above_log2 by lia. reflexivity.
  - destruct (Hmirror (31 - Z.log2 x) (ReverseSS.ss_mark dm x (31 - Z.log2 x))
                ltac:(lia)) as (Ht2 & _).
    replace (31 - (31 - Z.log2 x)) with (Z.log2 x) in Ht2 by lia.
    pose proof (Hss (Z.log2 x) ltac:(lia)) as Hb.
    rewrite Ht2, Hm, ss_test_negb_bit by lia.
    rewrite ss_mark_bit by lia.
    rewrite Z.eqb_refl. cbn [negb]. now rewrite andb_false_r.
  - destruct (Hmirror (31 - Z.log2 x) (ReverseSS.ss_mark dm x (31 - Z.log2 x))
                ltac:(lia)) as (_ & _ & Hu2).
    replace (31 - (31 - Z.log2 x)) with (Z.log2 x) in Hu2 by lia.
    rewrite Hu2, Hm.
    apply Z.bits_inj'. intros k Hk.
    pose proof (Hss (Z.log2 x) ltac:(lia)) as Hb.
    rewrite ss_unmark_bit, ss_mark_bit by lia.
    destruct (Z.eqb_spec k (Z.log2 x)) as [-> | _]; cbn [negb].
    + rewrite Z.bit_log2 by lia. reflexivity.
    + now rewrite andb_true_r, orb_false_r.
Qed.

Lemma reverse_slot_set_find_agrees_witness :
  0 < 2 ^ 29 + 5 < 2 ^ 32 /\
  ReverseSS.ss_find (2 ^ 29 + 5) = Ok 2 /\
  ReverseSS.ss_test ILP32 (2 ^ 29 + 5) 2 = false /\
  ReverseSS.ss_mark ILP32 (2 ^ 29 + 5) 2 = 5 /\
  exists i,
    ReverseSS.ss_find (2 ^ 29 + 5) = Ok i /\ 0 <= i <= 31 /\
    ReverseSS.ss_test ILP32 (2 ^ 29 + 5) i = false /\
    (forall j, 0 <= j < i -> ReverseSS.ss_test ILP32 (2 ^ 29 + 5) j = true) /\
    ReverseSS.ss_test ILP32 (ReverseSS.ss_mark ILP32 (2 ^ 29 + 5) i) i = true /\
    ReverseSS.ss_unmark ILP32 (ReverseSS.ss_mark ILP32 (2 ^ 29 + 5) i) i
      = 2 ^ 29 + 5.
Proof.
  assert (H : 0 < 2 ^ 29 + 5 < 2 ^ 32) by lia.
  split; [exact H |].
  split; [vm_compute; reflexivity |].
  split; [vm_compute; reflexivity |].
  split; [vm_compute; reflexivity |].
  exact (proj2 (reverse_slot_set_find_agrees ILP32 (2 ^ 29 + 5) H)).
Defined.

(** ** The lowest free slot of the group of a pool *)



